(** * UTF-8 decoding in RethinkDB: [src/parsing/utf8.cc]

    A shallow embedding of the [utf8] namespace: the byte classifier, the
    codepoint decoder [next_codepoint], the validity scanner
    [is_valid_internal], the cursor [iterator_t::advance] and the textual
    element scanner [next_textual_element], followed by the properties the
    specification states about them.

    Conventions of the embedding.
    - A [char] is a [Byte.byte]; a buffer is a [list byte]; an iterator into
      the buffer is its offset, a [nat].  [*p] is [deref buf p].  The code
      never reads at or beyond [end]; a statement that speaks of the bytes
      of a range takes [end_ <= length buf].
    - [unsigned int] and [char32_t] values are [Z]s below [2^32]; the
      wrap-around of [<<] and [~] is written out.  The offset in a
      [reason_t] is a [Z], computed without wrap-around; it is never
      negative ([reason_position_bounds]).
    - An out-parameter ([char32_t *codepoint], [reason_t *reason]) is passed
      in and returned.
    - [next_codepoint], [fail] and [next_textual_element] return
      [Iterator &&], and what [next_codepoint] and [next_textual_element]
      return designates one of their own locals.  The embedding has two
      layers.  In [next_codepoint] the field [new_position] is the value
      the local [position] holds at the [return] statement; [is_valid_loop],
      [advance] and [next_textual_element_loop] continue from that value,
      as if the iterator were returned by value.  The section "The
      iterators handed back" then models the reference that is returned and
      the copy the callers make from it ([is_valid_loop_src],
      [advance_src], [next_textual_element_loop_src]).  A statement that
      depends on the first layer only through a position that a caller
      would have to read says "read by value". *)

From Stdlib Require Import ZArith List Bool String Lia Arith.
From Stdlib Require Import Init.Byte Strings.Byte.
Import ListNotations.

Local Open Scope Z_scope.

(** ** Data model *)

Abbreviation char := byte (only parsing).

(** The value of a byte as an unsigned octet, [0 .. 255]. *)
Definition byte_val (c : char) : Z := Z.of_N (Byte.to_N c).

Definition deref (buf : list char) (p : nat) : char := nth p buf x00.

(** [reason_t] is declared in [parsing/utf8.hpp]: a C string and an offset. *)
Record reason_t : Type := mk_reason {
  explanation : string;
  position : Z
}.

(** [*(reason->explanation) != 0]: the first character is not NUL. *)
Definition has_explanation (r : reason_t) : bool :=
  match explanation r with
  | EmptyString => false
  | String _ _ => true
  end.

(** What a call of [next_codepoint] leaves behind: the iterator it returns
    and the contents of its two out-parameters. *)
Record decoded : Type := mk_decoded {
  new_position : nat;
  codepoint : Z;
  reason : reason_t
}.

Definition wrap32 (z : Z) : Z := z mod 2 ^ 32.
Definition shl32 (x amount : Z) : Z := wrap32 (Z.shiftl x amount).
Definition not32 (x : Z) : Z := wrap32 (Z.lnot x).

Definition HIGH_BIT : Z := 0x80.
Definition HIGH_TWO_BITS : Z := 0xC0.
Definition HIGH_THREE_BITS : Z := 0xE0.
Definition HIGH_FOUR_BITS : Z := 0xF0.
Definition HIGH_FIVE_BITS : Z := 0xF8.

Definition REPLACEMENT : Z := 0xFFFD.

Definition END_OF_STRING : string :=
  "Expected continuation byte, saw end of string".
Definition SOMETHING_ELSE : string :=
  "Expected continuation byte, saw something else".
Definition OVERLONG : string := "Overlong encoding seen".
Definition BEYOND_UNICODE : string :=
  "Non-Unicode character encoded (beyond U+10FFFF)".
Definition INVALID_INITIAL : string := "Invalid initial byte seen".

Section Utf8.

(** Whether plain [char] is signed is the implementation's choice; the
    classifier mixes [char] with [unsigned int], so the model keeps the
    choice open. *)
Variable char_signed : bool.

(** ** Byte classifier *)

(** A [char] operand of [&] against an [unsigned int]: promoted to [int]
    (sign-extended when [char] is signed), then converted to
    [unsigned int]. *)
Definition to_unsigned (c : char) : Z :=
  let v := byte_val c in
  if char_signed && (128 <=? v) then wrap32 (v - 256) else v.

Definition is_standalone (c : char) : bool :=
  Z.land (to_unsigned c) HIGH_BIT =? 0.

Definition is_twobyte_start (c : char) : bool :=
  Z.land (to_unsigned c) HIGH_THREE_BITS =? HIGH_TWO_BITS.

Definition is_threebyte_start (c : char) : bool :=
  Z.land (to_unsigned c) HIGH_FOUR_BITS =? HIGH_THREE_BITS.

Definition is_fourbyte_start (c : char) : bool :=
  Z.land (to_unsigned c) HIGH_FIVE_BITS =? HIGH_FOUR_BITS.

Definition is_continuation (c : char) : bool :=
  Z.land (to_unsigned c) HIGH_TWO_BITS =? HIGH_BIT.

Definition extract_bits (c : char) (bits : Z) : Z :=
  Z.land (Z.land (to_unsigned c) (not32 bits)) 0xFF.

Definition continuation_data (c : char) : Z :=
  extract_bits c HIGH_TWO_BITS.

Definition extract_and_shift (c : char) (bits amount : Z) : Z :=
  shl32 (extract_bits c bits) amount.

(** ** Codepoint decoder *)

(** [fail]: records the explanation and the offset [position - start - 1],
    overwrites the codepoint with U+FFFD and hands [position] back. *)
Definition fail (expl : string) (start pos : nat) : decoded :=
  {| new_position := pos;
     codepoint := REPLACEMENT;
     reason := {| explanation := expl;
                  position := Z.of_nat pos - Z.of_nat start - 1 |} |}.

(** [is_valid_continuation_byte]: [None] is the null pointer. *)
Definition is_valid_continuation_byte (buf : list char) (pos end_ : nat)
  : option string :=
  if (pos =? end_)%nat then Some END_OF_STRING
  else if negb (is_continuation (deref buf pos)) then Some SOMETHING_ELSE
  else None.

Definition no_reason : reason_t := {| explanation := ""; position := 0 |}.

Definition next_codepoint (buf : list char) (start end_ : nat)
    (codepoint0 : Z) : decoded :=
  let pos := start in
  let reason := no_reason in
  if (pos =? end_)%nat then
    {| new_position := pos; codepoint := codepoint0; reason := reason |}
  else
    let current := deref buf pos in
    let pos := S pos in
    if is_standalone current then
      {| new_position := pos; codepoint := to_unsigned current;
         reason := reason |}
    else if is_twobyte_start current then
      let cp := extract_and_shift current HIGH_THREE_BITS 6 in
      match is_valid_continuation_byte buf pos end_ with
      | Some expl => fail expl start pos
      | None =>
        let cp := Z.lor cp (continuation_data (deref buf pos)) in
        let pos := S pos in
        if cp <? 0x0080 then fail OVERLONG start pos
        else {| new_position := pos; codepoint := cp; reason := reason |}
      end
    else if is_threebyte_start current then
      let cp := extract_and_shift current HIGH_FOUR_BITS 12 in
      match is_valid_continuation_byte buf pos end_ with
      | Some expl => fail expl start pos
      | None =>
        let cp := Z.lor cp (shl32 (continuation_data (deref buf pos)) 6) in
        let pos := S pos in
        match is_valid_continuation_byte buf pos end_ with
        | Some expl => fail expl start pos
        | None =>
          let cp := Z.lor cp (continuation_data (deref buf pos)) in
          let pos := S pos in
          if cp <? 0x0800 then fail OVERLONG start pos
          else {| new_position := pos; codepoint := cp; reason := reason |}
        end
      end
    else if is_fourbyte_start current then
      let cp := extract_and_shift current HIGH_FIVE_BITS 18 in
      match is_valid_continuation_byte buf pos end_ with
      | Some expl => fail expl start pos
      | None =>
        let cp := Z.lor cp (shl32 (continuation_data (deref buf pos)) 12) in
        let pos := S pos in
        match is_valid_continuation_byte buf pos end_ with
        | Some expl => fail expl start pos
        | None =>
          let cp := Z.lor cp (shl32 (continuation_data (deref buf pos)) 6) in
          let pos := S pos in
          match is_valid_continuation_byte buf pos end_ with
          | Some expl => fail expl start pos
          | None =>
            let cp := Z.lor cp (continuation_data (deref buf pos)) in
            let pos := S pos in
            if cp <? 0x10000 then fail OVERLONG start pos
            else if cp >? 0x10FFFF then fail BEYOND_UNICODE start pos
            else {| new_position := pos; codepoint := cp; reason := reason |}
          end
        end
      end
    else
      fail INVALID_INITIAL start pos.

(** ** Validity scanner *)

(** The [while] loop of [is_valid_internal], read by value: [cend] is
    [new_position d].  [fuel] bounds the number of times the loop condition
    is evaluated; [None] is "fuel exhausted".  [codepoint] and [reason]
    hold the current contents of the local [char32_t codepoint] and of
    [*reason].  [is_valid_loop_src] is the loop with the copy from the
    returned reference. *)
Fixpoint is_valid_loop (fuel : nat) (buf : list char) (begin end_ : nat)
    (cbegin : nat) (codepoint0 : Z) (reason0 : reason_t)
  : option (bool * reason_t) :=
  match fuel with
  | O => None
  | S fuel' =>
    if negb (cbegin =? end_)%nat then
      let d := next_codepoint buf cbegin end_ codepoint0 in
      if has_explanation (reason d) then
        Some (false,
              {| explanation := explanation (reason d);
                 position := position (reason d)
                             + (Z.of_nat cbegin - Z.of_nat begin) |})
      else
        is_valid_loop fuel' buf begin end_ (new_position d) (codepoint d)
                      (reason d)
    else Some (true, reason0)
  end.

(** Value of a [char32_t] local declared without an initialiser. *)
Variable indeterminate : Z.

Definition is_valid_internal (buf : list char) (begin end_ : nat)
    (reason0 : reason_t) : option (bool * reason_t) :=
  is_valid_loop (S (end_ - begin)) buf begin end_ begin indeterminate reason0.

(** [is_valid(str, reason)] and [is_valid(str)]; the latter scans with a
    local [reason_t reason;] and returns the flag alone. *)
Definition is_valid_reason (str : list char) (reason0 : reason_t)
  : option (bool * reason_t) :=
  is_valid_internal str 0 (List.length str) reason0.

Definition is_valid (str : list char) : option bool :=
  option_map fst (is_valid_internal str 0 (List.length str) no_reason).

(** ** Cursor *)

(** [iterator_t] is declared in [parsing/utf8.hpp]; [advance] uses the
    members below.  The cursor borrows the buffer, which [advance] takes
    as an argument here. *)
Record iterator_t : Type := mk_iterator {
  it_start : nat;
  it_position : nat;
  it_end : nat;
  last_seen : Z;
  it_reason : reason_t;
  seen_end : bool
}.

(** Modelled from the spec: [saw_error] is defined in [parsing/utf8.hpp],
    which is absent; the spec has "failed? (reason non-empty)". *)
Definition saw_error (it : iterator_t) : bool := has_explanation (it_reason it).

(** [advance], its decoding branch read by value ([new_position] is
    [new_position d]); [advance_src] has the copy from the returned
    reference. *)
Definition advance (buf : list char) (it : iterator_t) : iterator_t :=
  if seen_end it then it
  else if (it_position it =? it_end it)%nat then
    {| it_start := it_start it;
       it_position := it_position it;
       it_end := it_end it;
       last_seen := 0;
       it_reason := {| explanation := ""; position := 0 |};
       seen_end := true |}
  else
    let d := next_codepoint buf (it_position it) (it_end it) (last_seen it) in
    let it1 :=
      {| it_start := it_start it;
         it_position := it_position it;
         it_end := it_end it;
         last_seen := codepoint d;
         it_reason := reason d;
         seen_end := seen_end it |} in
    let reason1 :=
      if saw_error it1 then
        {| explanation := explanation (reason d);
           position := position (reason d)
                       + (Z.of_nat (it_position it) - Z.of_nat (it_start it)) |}
      else reason d in
    {| it_start := it_start it;
       it_position := new_position d;
       it_end := it_end it;
       last_seen := codepoint d;
       it_reason := reason1;
       seen_end := seen_end it |}.

(** ** Textual element scanner *)

(** The iterator [next_textual_element] returns and the reason it leaves.
    [consulted] is ghost data: [keep_going] is a [std::function], so each
    call of it is an event; the model lists the calls in order, each with
    the offset of the codepoint it was asked about. *)
Record element : Type := mk_element {
  elem_end : nat;
  elem_reason : reason_t;
  consulted : list (nat * Z)
}.

(** The [do ... while] loop, read by value ([cend] is [new_position d],
    and the iterator returned is a value): one unit of [fuel] per execution
    of the body.  [next_textual_element_loop_src] has the copy from the
    returned reference. *)
Fixpoint next_textual_element_loop (fuel : nat) (buf : list char)
    (begin end_ : nat) (keep_going : Z -> bool)
    (cbegin : nat) (codepoint0 : Z) (calls : list (nat * Z))
  : option element :=
  match fuel with
  | O => None
  | S fuel' =>
    let d := next_codepoint buf cbegin end_ codepoint0 in
    let cend := new_position d in
    if has_explanation (reason d) then
      let reason1 :=
        {| explanation := explanation (reason d);
           position := position (reason d)
                       + (Z.of_nat cbegin - Z.of_nat begin) |} in
      if (cbegin =? begin)%nat then
        Some {| elem_end := cend; elem_reason := reason1;
                consulted := calls |}
      else
        Some {| elem_end := cbegin; elem_reason := reason1;
                consulted := calls |}
    else
      (* [cbegin != begin && !keep_going(codepoint)], left to right *)
      let '(stop, calls1) :=
        if negb (cbegin =? begin)%nat
        then (negb (keep_going (codepoint d)),
              calls ++ [(cbegin, codepoint d)])
        else (false, calls) in
      if stop then
        Some {| elem_end := cbegin; elem_reason := reason d;
                consulted := calls1 |}
      else
        let cbegin1 := cend in
        if negb (cbegin1 =? end_)%nat then
          next_textual_element_loop fuel' buf begin end_ keep_going
                                    cbegin1 (codepoint d) calls1
        else
          Some {| elem_end := cbegin1; elem_reason := reason d;
                  consulted := calls1 |}
  end.

Definition next_textual_element (buf : list char) (begin end_ : nat)
    (keep_going : Z -> bool) : option element :=
  next_textual_element_loop (S (end_ - begin)) buf begin end_ keep_going
                            begin indeterminate [].

End Utf8.

(** ** The iterators handed back

    Every [return] of [next_codepoint] is [return std::move(position)], or
    [return fail(..., std::move(position), ...)] where [fail] hands back
    its parameter [position], bound to the same object: the [Iterator &&]
    that [next_codepoint] returns designates its local [position], whose
    lifetime ends when the function returns.  [next_textual_element]
    likewise returns [std::move(cbegin)] or [std::move(cend)], its locals.
    A caller that copies from such a reference reads an object whose
    lifetime has ended, which is undefined. *)

Inductive lifetime : Type := alive | ended.

Record reference : Type := mk_reference {
  referent : nat;
  life : lifetime
}.

(** Copying an iterator out of a reference. *)
Definition read (r : reference) : option nat :=
  match life r with
  | alive => Some (referent r)
  | ended => None
  end.

(** [return std::move(x)] for a local [x] holding [pos], seen from the
    caller. *)
Definition local_at_return (pos : nat) : reference :=
  {| referent := pos; life := ended |}.

(** What [next_codepoint] returns. *)
Definition next_codepoint_returns (sgn : bool) (buf : list char)
    (start end_ : nat) (codepoint0 : Z) : reference :=
  local_at_return (new_position (next_codepoint sgn buf start end_ codepoint0)).

(** How a call ends: with a result, in undefined behaviour, or (in the
    model only) out of fuel. *)
Inductive outcome (A : Type) : Type :=
| finished (a : A)
| undefined
| out_of_fuel.

Arguments finished {A} a.
Arguments undefined {A}.
Arguments out_of_fuel {A}.

(** [is_valid_internal], lines 60-70: [cend = next_codepoint(...)] copies
    from the returned reference before the reason is tested. *)
Fixpoint is_valid_loop_src (sgn : bool) (fuel : nat) (buf : list char)
    (begin end_ : nat) (cbegin : nat) (codepoint0 : Z) (reason0 : reason_t)
  : outcome (bool * reason_t) :=
  match fuel with
  | O => out_of_fuel
  | S fuel' =>
    if negb (cbegin =? end_)%nat then
      let d := next_codepoint sgn buf cbegin end_ codepoint0 in
      match read (next_codepoint_returns sgn buf cbegin end_ codepoint0) with
      | None => undefined
      | Some cend =>
        if has_explanation (reason d) then
          finished (false,
                    {| explanation := explanation (reason d);
                       position := position (reason d)
                                   + (Z.of_nat cbegin - Z.of_nat begin) |})
        else
          is_valid_loop_src sgn fuel' buf begin end_ cend (codepoint d)
                            (reason d)
      end
    else finished (true, reason0)
  end.

Definition is_valid_internal_src (sgn : bool) (indeterminate : Z)
    (buf : list char) (begin end_ : nat) (reason0 : reason_t)
  : outcome (bool * reason_t) :=
  is_valid_loop_src sgn (S (end_ - begin)) buf begin end_ begin
                    indeterminate reason0.


(** [next_textual_element], lines 239-258: [cend = next_codepoint(...)]
    copies from the returned reference, and the function returns a
    reference to its local [cbegin] or [cend]. *)
Fixpoint next_textual_element_loop_src (sgn : bool) (fuel : nat)
    (buf : list char) (begin end_ : nat) (keep_going : Z -> bool)
    (cbegin : nat) (codepoint0 : Z)
  : outcome (reference * reason_t) :=
  match fuel with
  | O => out_of_fuel
  | S fuel' =>
    let d := next_codepoint sgn buf cbegin end_ codepoint0 in
    match read (next_codepoint_returns sgn buf cbegin end_ codepoint0) with
    | None => undefined
    | Some cend =>
      if has_explanation (reason d) then
        let reason1 :=
          {| explanation := explanation (reason d);
             position := position (reason d)
                         + (Z.of_nat cbegin - Z.of_nat begin) |} in
        if (cbegin =? begin)%nat
        then finished (local_at_return cend, reason1)
        else finished (local_at_return cbegin, reason1)
      else if negb (cbegin =? begin)%nat && negb (keep_going (codepoint d))
      then finished (local_at_return cbegin, reason d)
      else
        let cbegin1 := cend in
        if negb (cbegin1 =? end_)%nat then
          next_textual_element_loop_src sgn fuel' buf begin end_ keep_going
                                        cbegin1 (codepoint d)
        else finished (local_at_return cbegin1, reason d)
    end
  end.

Definition next_textual_element_src (sgn : bool) (indeterminate : Z)
    (buf : list char) (begin end_ : nat) (keep_going : Z -> bool)
  : outcome (reference * reason_t) :=
  next_textual_element_loop_src sgn (S (end_ - begin)) buf begin end_
                                keep_going begin indeterminate.

(** ** Reference encoder

    The repository has no encoder.  To state the round trip, [encode_codepoint]
    is the encoding table of RFC 3629, section 3, applied to any value up to
    0x10FFFF (the surrogate range 0xD800..0xDFFF takes the three-byte row). *)

Definition byte_of_Z (z : Z) : byte :=
  match Byte.of_N (Z.to_N z) with
  | Some b => b
  | None => x00
  end.

Definition encode_codepoint (c : Z) : list byte :=
  if c <? 0x80 then
    [byte_of_Z c]
  else if c <? 0x800 then
    [byte_of_Z (Z.lor 0xC0 (Z.shiftr c 6));
     byte_of_Z (Z.lor 0x80 (Z.land c 0x3F))]
  else if c <? 0x10000 then
    [byte_of_Z (Z.lor 0xE0 (Z.shiftr c 12));
     byte_of_Z (Z.lor 0x80 (Z.land (Z.shiftr c 6) 0x3F));
     byte_of_Z (Z.lor 0x80 (Z.land c 0x3F))]
  else
    [byte_of_Z (Z.lor 0xF0 (Z.shiftr c 18));
     byte_of_Z (Z.lor 0x80 (Z.land (Z.shiftr c 12) 0x3F));
     byte_of_Z (Z.lor 0x80 (Z.land (Z.shiftr c 6) 0x3F));
     byte_of_Z (Z.lor 0x80 (Z.land c 0x3F))].

Definition encode (cs : list Z) : list byte := flat_map encode_codepoint cs.

(** Decoding a buffer "codepoint by codepoint": [next_codepoint] applied
    from [pos] until [end_] is reached, collecting the codepoints; [None]
    when a step reports a failure (or the fuel runs out). *)
Fixpoint decode_all (sgn : bool) (fuel : nat) (buf : list char)
    (pos end_ : nat) (codepoint0 : Z) : option (list Z) :=
  match fuel with
  | O => None
  | S fuel' =>
    if (pos =? end_)%nat then Some []
    else
      let d := next_codepoint sgn buf pos end_ codepoint0 in
      if has_explanation (reason d) then None
      else option_map (cons (codepoint d))
             (decode_all sgn fuel' buf (new_position d) end_ (codepoint d))
  end.

(** ** Well-formed sequences

    [decodes buf start end_ np cp]: the bytes of [buf] from [start] up to
    [np], all before [end_], are a well-formed UTF-8 sequence in shortest
    form whose value is [cp] (no more than 0x10FFFF; surrogates included).
    Stated on octet values, independently of the decoder. *)

Definition bv (buf : list char) (k : nat) : Z := byte_val (deref buf k).

Definition cont_val (v : Z) : Prop := 0x80 <= v < 0xC0.

Inductive decodes (buf : list char) (start end_ : nat) : nat -> Z -> Prop :=
| decodes_one :
    (start < end_)%nat ->
    bv buf start < 0x80 ->
    decodes buf start end_ (S start) (bv buf start)
| decodes_two cp :
    (S (S start) <= end_)%nat ->
    0xC0 <= bv buf start < 0xE0 ->
    cont_val (bv buf (S start)) ->
    cp = (bv buf start - 0xC0) * 64 + (bv buf (S start) - 0x80) ->
    0x80 <= cp ->
    decodes buf start end_ (S (S start)) cp
| decodes_three cp :
    (S (S (S start)) <= end_)%nat ->
    0xE0 <= bv buf start < 0xF0 ->
    cont_val (bv buf (S start)) ->
    cont_val (bv buf (S (S start))) ->
    cp = (bv buf start - 0xE0) * 4096 + (bv buf (S start) - 0x80) * 64
         + (bv buf (S (S start)) - 0x80) ->
    0x800 <= cp ->
    decodes buf start end_ (S (S (S start))) cp
| decodes_four cp :
    (S (S (S (S start))) <= end_)%nat ->
    0xF0 <= bv buf start < 0xF8 ->
    cont_val (bv buf (S start)) ->
    cont_val (bv buf (S (S start))) ->
    cont_val (bv buf (S (S (S start)))) ->
    cp = (bv buf start - 0xF0) * 262144 + (bv buf (S start) - 0x80) * 4096
         + (bv buf (S (S start)) - 0x80) * 64
         + (bv buf (S (S (S start))) - 0x80) ->
    0x10000 <= cp <= 0x10FFFF ->
    decodes buf start end_ (S (S (S (S start)))) cp.

(** [failure buf start end_ expl pos]: where a failing call that started at
    [start] stops, by explanation.  For the two continuation failures the
    bytes strictly between [start] and [pos] are the continuation bytes
    already consumed. *)
Inductive failure (buf : list char) (start end_ : nat)
  : string -> nat -> Prop :=
| failure_end pos :
    (start < pos <= S (S (S start)))%nat ->
    pos = end_ ->
    (forall k, (start < k < pos)%nat -> cont_val (bv buf k)) ->
    failure buf start end_ END_OF_STRING pos
| failure_unexpected pos :
    (start < pos <= S (S (S start)))%nat ->
    (pos < end_)%nat ->
    ~ cont_val (bv buf pos) ->
    (forall k, (start < k < pos)%nat -> cont_val (bv buf k)) ->
    failure buf start end_ SOMETHING_ELSE pos
| failure_overlong pos :
    (S start < pos <= S (S (S (S start))))%nat ->
    (pos <= end_)%nat ->
    failure buf start end_ OVERLONG pos
| failure_beyond :
    (S (S (S (S start))) <= end_)%nat ->
    failure buf start end_ BEYOND_UNICODE (S (S (S (S start))))
| failure_initial :
    (start < end_)%nat ->
    failure buf start end_ INVALID_INITIAL (S start).

(** ** Vocabulary of the statements *)

Definition in_unicode_range (c : Z) : Prop := 0 <= c <= 0x10FFFF.

Definition is_surrogate (c : Z) : Prop := 0xD800 <= c <= 0xDFFF.

(** Number of continuation bytes a lead byte announces. *)
Definition continuation_bytes_needed (sgn : bool) (c : char) : nat :=
  if is_twobyte_start sgn c then 1
  else if is_threebyte_start sgn c then 2
  else if is_fourbyte_start sgn c then 3
  else 0.

(** The multi-byte sequence that starts at [start] is cut short by [end_]:
    its lead byte announces more continuation bytes than the range holds,
    and every byte the range holds after the lead is a continuation byte. *)
Definition truncated (sgn : bool) (buf : list char) (start end_ : nat)
  : Prop :=
  (start < end_)%nat
  /\ (end_ - start - 1 < continuation_bytes_needed sgn (deref buf start))%nat
  /\ forall k, (start < k < end_)%nat ->
               is_continuation sgn (deref buf k) = true.

(** [absorbs buf begin end_ keep_going c k]: an element that begins at
    [begin] and has got as far as [c] extends to [k], which lies before
    [end_]: every codepoint from [c] up to [k] is well formed and, unless it
    is the one at [begin], satisfies [keep_going]. *)
Inductive absorbs (buf : list char) (begin end_ : nat) (keep_going : Z -> bool)
  : nat -> nat -> Prop :=
| absorbs_here c : absorbs buf begin end_ keep_going c c
| absorbs_step c np cp k :
    decodes buf c end_ np cp ->
    c = begin \/ keep_going cp = true ->
    (np < end_)%nat ->
    absorbs buf begin end_ keep_going np k ->
    absorbs buf begin end_ keep_going c k.

(** A call of [keep_going] recorded in [consulted], asked about a codepoint
    that starts after [begin]. *)
Definition after_begin (begin : nat) (call : nat * Z) : Prop :=
  (begin < fst call)%nat.

(** The bytes of [buf] from [start] up to [np]. *)
Definition consumed (buf : list char) (start np : nat) : list char :=
  firstn (np - start) (skipn start buf).

(** Three statements of the specification that the code does not satisfy,
    as the specification words them. *)



(** "Fail with EndOfInputInContinuation at the offset just past the last
    available byte": the offset is the length of the range. *)
Definition reports_offset_past_last_byte (sgn : bool) (buf : list char)
    (start end_ : nat) (cp0 : Z) : Prop :=
  truncated sgn buf start end_ ->
  let d := next_codepoint sgn buf start end_ cp0 in
  explanation (reason d) = END_OF_STRING
  /\ position (reason d) = Z.of_nat end_ - Z.of_nat start.

(** "[0xC0, 0x80] fails OverlongEncoding at offset 0". *)
Definition overlong_nul_at_offset_zero (sgn : bool) (cp0 : Z) : Prop :=
  reason (next_codepoint sgn [xc0; x80] 0 2 cp0)
  = {| explanation := OVERLONG; position := 0 |}.

(** ** Vocabulary of the further properties *)

(** A decoding result moved [p] bytes to the right: the returned iterator
    shifts, the codepoint and the reason (whose offset is relative to the
    start of the call) do not. *)
Definition relocate (p : nat) (d : decoded) : decoded :=
  {| new_position := p + new_position d;
     codepoint := codepoint d;
     reason := reason d |}.

(** How many of the five classifier predicates hold of a byte. *)
Definition classes_of (sgn : bool) (c : char) : nat :=
  Nat.b2n (is_standalone sgn c) + Nat.b2n (is_twobyte_start sgn c)
  + Nat.b2n (is_threebyte_start sgn c) + Nat.b2n (is_fourbyte_start sgn c)
  + Nat.b2n (is_continuation sgn c).

(** Octets that no accepted buffer contains: 0xC0, 0xC1 and 0xF5..0xFF. *)
Definition never_in_valid (v : Z) : Prop :=
  v = 0xC0 \/ v = 0xC1 \/ 0xF5 <= v.

(** Why an element that ends at [stop] goes no further: the range ends
    there, or the next decoding step fails, or it yields a codepoint that
    [keep_going] rejects. *)
Definition element_cannot_extend (sgn : bool) (buf : list char) (end_ : nat)
    (keep_going : Z -> bool) (stop : nat) : Prop :=
  stop = end_
  \/ ((stop < end_)%nat
      /\ forall cp,
           let d := next_codepoint sgn buf stop end_ cp in
           has_explanation (reason d) = true
           \/ keep_going (codepoint d) = false).

(** The [n] bytes after the lead byte at [start] lie within the range and
    are continuation bytes. *)
Definition followed_by_continuations (buf : list char) (start end_ n : nat)
  : Prop :=
  (start + n < end_)%nat
  /\ forall k, (start < k <= start + n)%nat -> cont_val (bv buf k).

(** * Properties *)

(** ** Bytes *)

Lemma byte_val_range (c : char) : 0 <= byte_val c < 256.
Proof.
  unfold byte_val. pose proof (Byte.to_N_bounded c). lia.
Qed.

Lemma byte_of_Z_val (c : char) : byte_of_Z (byte_val c) = c.
Proof.
  unfold byte_of_Z, byte_val. rewrite N2Z.id, Byte.of_to_N. reflexivity.
Qed.

Lemma byte_val_of_Z (z : Z) : 0 <= z < 256 -> byte_val (byte_of_Z z) = z.
Proof.
  intros Hz. unfold byte_of_Z, byte_val.
  destruct (Byte.of_N (Z.to_N z)) as [b|] eqn:E.
  - apply Byte.to_of_N in E. rewrite E. lia.
  - apply Byte.of_N_None_iff in E. lia.
Qed.

(** The classifier, read off the octet value.  Each equation is checked on
    all 256 bytes, for a signed and for an unsigned [char]. *)

Lemma is_standalone_val sgn c :
  is_standalone sgn c = (byte_val c <? 0x80).
Proof. destruct sgn, c; reflexivity. Qed.

Lemma is_twobyte_start_val sgn c :
  is_twobyte_start sgn c = (0xC0 <=? byte_val c) && (byte_val c <? 0xE0).
Proof. destruct sgn, c; reflexivity. Qed.

Lemma is_threebyte_start_val sgn c :
  is_threebyte_start sgn c = (0xE0 <=? byte_val c) && (byte_val c <? 0xF0).
Proof. destruct sgn, c; reflexivity. Qed.

Lemma is_fourbyte_start_val sgn c :
  is_fourbyte_start sgn c = (0xF0 <=? byte_val c) && (byte_val c <? 0xF8).
Proof. destruct sgn, c; reflexivity. Qed.

Lemma is_continuation_val sgn c :
  is_continuation sgn c = (0x80 <=? byte_val c) && (byte_val c <? 0xC0).
Proof. destruct sgn, c; reflexivity. Qed.

Lemma to_unsigned_standalone sgn c :
  is_standalone sgn c = true -> to_unsigned sgn c = byte_val c.
Proof. destruct sgn, c; solve [reflexivity | discriminate]. Qed.

Lemma continuation_data_val sgn c :
  continuation_data sgn c = byte_val c mod 64.
Proof. destruct sgn, c; reflexivity. Qed.

Lemma extract_bits_three sgn c :
  extract_bits sgn c HIGH_THREE_BITS = byte_val c mod 32.
Proof. destruct sgn, c; reflexivity. Qed.

Lemma extract_bits_four sgn c :
  extract_bits sgn c HIGH_FOUR_BITS = byte_val c mod 16.
Proof. destruct sgn, c; reflexivity. Qed.

Lemma extract_bits_five sgn c :
  extract_bits sgn c HIGH_FIVE_BITS = byte_val c mod 8.
Proof. destruct sgn, c; reflexivity. Qed.

(** ** Shifts and bitwise or as arithmetic *)

Lemma shl32_small x n :
  0 <= n -> 0 <= x -> x * 2 ^ n < 2 ^ 32 -> shl32 x n = x * 2 ^ n.
Proof.
  intros Hn Hx Hlt. unfold shl32, wrap32.
  rewrite Z.shiftl_mul_pow2 by assumption.
  apply Z.mod_small. split; [|assumption].
  apply Z.mul_nonneg_nonneg; [assumption|]. apply Z.pow_nonneg. lia.
Qed.

Lemma lor_mul_add a b n :
  0 <= n -> 0 <= b < 2 ^ n -> Z.lor (a * 2 ^ n) b = a * 2 ^ n + b.
Proof.
  intros Hn Hb.
  assert (Hland : Z.land (a * 2 ^ n) b = 0).
  { apply Z.bits_inj'. intros k Hk.
    rewrite Z.land_spec, Z.bits_0.
    destruct (Z.lt_ge_cases k n) as [Hlt|Hge].
    - rewrite Z.mul_pow2_bits_low by assumption. reflexivity.
    - replace b with (b mod 2 ^ n) by (apply Z.mod_small; assumption).
      rewrite Z.mod_pow2_bits_high by lia. apply andb_false_r. }
  rewrite <- Z.lxor_lor by assumption.
  symmetry. apply Z.add_nocarry_lxor. assumption.
Qed.

Lemma accumulate_two sgn c0 c1 :
  Z.lor (extract_and_shift sgn c0 HIGH_THREE_BITS 6) (continuation_data sgn c1)
  = (byte_val c0 mod 32) * 64 + byte_val c1 mod 64.
Proof.
  unfold extract_and_shift.
  rewrite extract_bits_three, continuation_data_val.
  pose proof (Z.mod_pos_bound (byte_val c0) 32 eq_refl).
  pose proof (Z.mod_pos_bound (byte_val c1) 64 eq_refl).
  rewrite shl32_small by lia.
  apply lor_mul_add; lia.
Qed.

Lemma accumulate_three sgn c0 c1 c2 :
  Z.lor (Z.lor (extract_and_shift sgn c0 HIGH_FOUR_BITS 12)
               (shl32 (continuation_data sgn c1) 6))
        (continuation_data sgn c2)
  = (byte_val c0 mod 16) * 4096 + (byte_val c1 mod 64) * 64
    + byte_val c2 mod 64.
Proof.
  unfold extract_and_shift.
  rewrite extract_bits_four, !continuation_data_val.
  pose proof (Z.mod_pos_bound (byte_val c0) 16 eq_refl).
  pose proof (Z.mod_pos_bound (byte_val c1) 64 eq_refl).
  pose proof (Z.mod_pos_bound (byte_val c2) 64 eq_refl).
  rewrite !shl32_small by lia.
  change (2 ^ 6) with 64. change (2 ^ 12) with 4096.
  replace (byte_val c0 mod 16 * 4096) with (byte_val c0 mod 16 * 2 ^ 12)
    by reflexivity.
  rewrite lor_mul_add by lia.
  replace (byte_val c0 mod 16 * 2 ^ 12 + byte_val c1 mod 64 * 64)
    with ((byte_val c0 mod 16 * 64 + byte_val c1 mod 64) * 2 ^ 6) by lia.
  rewrite lor_mul_add by lia. lia.
Qed.

Lemma accumulate_four sgn c0 c1 c2 c3 :
  Z.lor (Z.lor (Z.lor (extract_and_shift sgn c0 HIGH_FIVE_BITS 18)
                      (shl32 (continuation_data sgn c1) 12))
               (shl32 (continuation_data sgn c2) 6))
        (continuation_data sgn c3)
  = (byte_val c0 mod 8) * 262144 + (byte_val c1 mod 64) * 4096
    + (byte_val c2 mod 64) * 64 + byte_val c3 mod 64.
Proof.
  unfold extract_and_shift.
  rewrite extract_bits_five, !continuation_data_val.
  pose proof (Z.mod_pos_bound (byte_val c0) 8 eq_refl).
  pose proof (Z.mod_pos_bound (byte_val c1) 64 eq_refl).
  pose proof (Z.mod_pos_bound (byte_val c2) 64 eq_refl).
  pose proof (Z.mod_pos_bound (byte_val c3) 64 eq_refl).
  rewrite !shl32_small by lia.
  change (2 ^ 6) with 64. change (2 ^ 12) with 4096.
  rewrite lor_mul_add by lia.
  replace (byte_val c0 mod 8 * 2 ^ 18 + byte_val c1 mod 64 * 4096)
    with ((byte_val c0 mod 8 * 64 + byte_val c1 mod 64) * 2 ^ 12) by lia.
  rewrite lor_mul_add by lia.
  replace ((byte_val c0 mod 8 * 64 + byte_val c1 mod 64) * 2 ^ 12
           + byte_val c2 mod 64 * 64)
    with ((byte_val c0 mod 8 * 4096 + byte_val c1 mod 64 * 64
           + byte_val c2 mod 64) * 2 ^ 6) by lia.
  rewrite lor_mul_add by lia. lia.
Qed.

(** ** The decoder, path by path *)

Lemma to_unsigned_small sgn c :
  byte_val c < 0x80 -> to_unsigned sgn c = byte_val c.
Proof.
  intros H. apply to_unsigned_standalone. rewrite is_standalone_val.
  apply Z.ltb_lt. assumption.
Qed.

Ltac arith := solve [lia | Z.div_mod_to_equations; lia].

Ltac split_on_ltb :=
  match goal with
  | |- context [?a <? ?b] => destruct (Z.ltb_spec a b); try (exfalso; arith)
  end.

(** The comparison that decides which branch a term takes. *)
Ltac scrutinee t :=
  lazymatch t with
  | (if ?c then _ else _) => scrutinee c
  | (match ?x with Some _ => _ | None => _ end) => scrutinee x
  | (?a && _)%bool => scrutinee a
  | negb ?a => scrutinee a
  | _ => t
  end.

Ltac split_on c :=
  lazymatch c with
  | (?a =? ?b)%nat => destruct (Nat.eqb_spec a b)
  | (?a <? ?b) => destruct (Z.ltb_spec a b)
  | (?a <=? ?b) => destruct (Z.leb_spec a b)
  | (?a >? ?b) => rewrite (Z.gtb_ltb a b); destruct (Z.ltb_spec b a)
  end; try (exfalso; arith); cbn [andb negb].

(** Follows the decoder down the branch it takes, one comparison at a
    time; branches that contradict the hypotheses are dropped. *)
Ltac step_decoder :=
  lazymatch goal with
  | |- ?lhs = _ -> _ => let c := scrutinee lhs in split_on c
  | |- ?lhs = _ => let c := scrutinee lhs in split_on c
  end.

(** The bytes between the lead byte and the position a continuation check
    stopped at. *)
Ltac between start :=
  let k := fresh "k" in
  let Hk := fresh "Hk" in
  intros k Hk;
  assert (k = S start \/ k = S (S start)) as [-> | ->] by lia;
  unfold cont_val, bv; arith.

Ltac open_decoder :=
  cbv beta zeta delta [next_codepoint is_valid_continuation_byte fail];
  rewrite ?is_standalone_val, ?is_twobyte_start_val, ?is_threebyte_start_val,
    ?is_fourbyte_start_val, ?is_continuation_val;
  rewrite ?accumulate_two, ?accumulate_three, ?accumulate_four.

Lemma decodes_sound sgn buf start end_ np cp cp0 :
  decodes buf start end_ np cp ->
  next_codepoint sgn buf start end_ cp0
  = {| new_position := np; codepoint := cp; reason := no_reason |}.
Proof.
  intros H. destruct H; unfold cont_val, bv in *; open_decoder;
    repeat step_decoder.
  - rewrite to_unsigned_small by assumption. reflexivity.
  - f_equal. arith.
  - f_equal. arith.
  - f_equal. arith.
Qed.

(** Every call on a non-empty range either went through [fail] or decoded
    a well-formed sequence. *)
Lemma next_codepoint_shape sgn buf start end_ cp0 d :
  (start < end_)%nat ->
  next_codepoint sgn buf start end_ cp0 = d ->
  (exists expl pos, d = fail expl start pos
                    /\ failure buf start end_ expl pos)
  \/ (reason d = no_reason
      /\ decodes buf start end_ (new_position d) (codepoint d)).
Proof.
  intros Hlt. open_decoder. repeat step_decoder; intros <-.
  all: first
    [ right; split; [reflexivity|]; cbn [new_position codepoint];
      first [ rewrite to_unsigned_small by assumption;
              apply decodes_one; assumption
            | apply decodes_two; unfold cont_val, bv; arith
            | apply decodes_three; unfold cont_val, bv; arith
            | apply decodes_four; unfold cont_val, bv; arith ]
    | left; eexists; eexists; split; [reflexivity|];
      first [ apply failure_end; [arith | arith | between start]
            | apply failure_unexpected;
              [arith | arith | unfold cont_val, bv; arith | between start]
            | apply failure_overlong; arith
            | apply failure_beyond; arith
            | apply failure_initial; arith ] ].
Qed.

(** ** The reference encoder, as arithmetic *)

Lemma lor_marker m a n x :
  m = a * 2 ^ n -> 0 <= n -> 0 <= x < 2 ^ n -> Z.lor m x = m + x.
Proof. intros -> Hn Hx. apply lor_mul_add; assumption. Qed.

Lemma encode_codepoint_arith c :
  0 <= c < 2 ^ 21 ->
  encode_codepoint c =
  if c <? 0x80 then
    [byte_of_Z c]
  else if c <? 0x800 then
    [byte_of_Z (0xC0 + c / 64); byte_of_Z (0x80 + c mod 64)]
  else if c <? 0x10000 then
    [byte_of_Z (0xE0 + c / 4096); byte_of_Z (0x80 + (c / 64) mod 64);
     byte_of_Z (0x80 + c mod 64)]
  else
    [byte_of_Z (0xF0 + c / 262144); byte_of_Z (0x80 + (c / 4096) mod 64);
     byte_of_Z (0x80 + (c / 64) mod 64); byte_of_Z (0x80 + c mod 64)].
Proof.
  intros Hc. unfold encode_codepoint.
  change 0x3F with (Z.ones 6).
  rewrite !Z.land_ones, !Z.shiftr_div_pow2 by lia.
  change (2 ^ 6) with 64. change (2 ^ 12) with 4096.
  change (2 ^ 18) with 262144.
  rewrite !(lor_marker 0x80 2 6) by (reflexivity || arith).
  destruct (Z.ltb_spec c 0x80); [reflexivity|].
  destruct (Z.ltb_spec c 0x800).
  { rewrite (lor_marker 0xC0 6 5) by (reflexivity || arith). reflexivity. }
  destruct (Z.ltb_spec c 0x10000).
  { rewrite (lor_marker 0xE0 14 4) by (reflexivity || arith). reflexivity. }
  rewrite (lor_marker 0xF0 30 3) by (reflexivity || arith). reflexivity.
Qed.

Lemma encode_codepoint_length c :
  (1 <= List.length (encode_codepoint c) <= 4)%nat.
Proof.
  unfold encode_codepoint.
  destruct (c <? 0x80), (c <? 0x800), (c <? 0x10000); simpl; lia.
Qed.

Lemma bv_app pre l post k :
  (k < List.length l)%nat ->
  bv (pre ++ l ++ post) (List.length pre + k) = byte_val (nth k l x00).
Proof.
  intros Hk. unfold bv, deref.
  rewrite app_nth2_plus, app_nth1 by assumption. reflexivity.
Qed.

(** The encoding of [c], wherever it sits in a buffer, is a well-formed
    sequence for [c]. *)
Lemma decodes_encode c pre post end_ :
  0 <= c <= 0x10FFFF ->
  (List.length pre + List.length (encode_codepoint c) <= end_)%nat ->
  decodes (pre ++ encode_codepoint c ++ post) (List.length pre) end_
          (List.length pre + List.length (encode_codepoint c)) c.
Proof.
  intros Hc. rewrite encode_codepoint_arith by lia.
  destruct (Z.ltb_spec c 0x80); [|destruct (Z.ltb_spec c 0x800);
    [|destruct (Z.ltb_spec c 0x10000)]]; intros Hend;
    match goal with
    | |- decodes (pre ++ ?l ++ post) _ _ _ _ =>
        pose proof (bv_app pre l post 0) as B0;
        pose proof (bv_app pre l post 1) as B1;
        pose proof (bv_app pre l post 2) as B2;
        pose proof (bv_app pre l post 3) as B3
    end;
    cbn [List.length nth] in *;
    remember (List.length pre) as start eqn:Hstart in *; clear Hstart;
    rewrite ?Nat.add_0_r in B0;
    replace (start + 1)%nat with (S start) in * by lia;
    replace (start + 2)%nat with (S (S start)) in * by lia;
    replace (start + 3)%nat with (S (S (S start))) in * by lia;
    replace (start + 4)%nat with (S (S (S (S start)))) in * by lia.
  - specialize (B0 ltac:(lia)). rewrite byte_val_of_Z in B0 by lia.
    rewrite <- B0 at 2. apply decodes_one; [lia|]. rewrite B0. lia.
  - specialize (B0 ltac:(lia)). specialize (B1 ltac:(lia)).
    rewrite byte_val_of_Z in B0, B1 by arith.
    apply decodes_two; unfold cont_val; rewrite ?B0, ?B1; arith.
  - specialize (B0 ltac:(lia)). specialize (B1 ltac:(lia)).
    specialize (B2 ltac:(lia)).
    rewrite byte_val_of_Z in B0, B1, B2 by arith.
    apply decodes_three; unfold cont_val; rewrite ?B0, ?B1, ?B2; arith.
  - specialize (B0 ltac:(lia)). specialize (B1 ltac:(lia)).
    specialize (B2 ltac:(lia)). specialize (B3 ltac:(lia)).
    rewrite byte_val_of_Z in B0, B1, B2, B3 by arith.
    apply decodes_four; unfold cont_val; rewrite ?B0, ?B1, ?B2, ?B3; arith.
Qed.

(** ** Scanning an encoded buffer *)

Lemma encode_cons c cs : encode (c :: cs) = encode_codepoint c ++ encode cs.
Proof. reflexivity. Qed.

(** One step over the encoding of [c] placed after [pre]. *)
Lemma next_codepoint_encode sgn c pre post cp0 :
  in_unicode_range c ->
  next_codepoint sgn (pre ++ encode_codepoint c ++ post) (List.length pre)
                 (List.length (pre ++ encode_codepoint c ++ post)) cp0
  = {| new_position := List.length (pre ++ encode_codepoint c);
       codepoint := c; reason := no_reason |}.
Proof.
  intros Hc. rewrite (length_app pre (encode_codepoint c)).
  apply decodes_sound, decodes_encode; [exact Hc|].
  rewrite !length_app. lia.
Qed.

Lemma is_valid_loop_encode sgn cs :
  Forall in_unicode_range cs ->
  forall pre fuel begin cp0 r0,
    (List.length cs < fuel)%nat ->
    exists r,
      is_valid_loop sgn fuel (pre ++ encode cs) begin
                    (List.length (pre ++ encode cs)) (List.length pre) cp0 r0
      = Some (true, r).
Proof.
  induction 1 as [|c cs Hc _ IH]; intros pre fuel begin cp0 r0 Hfuel;
    (destruct fuel as [|fuel]; [simpl in Hfuel; lia|]).
  - exists r0. simpl. rewrite app_nil_r, Nat.eqb_refl. reflexivity.
  - rewrite encode_cons. cbn [is_valid_loop].
    rewrite next_codepoint_encode by exact Hc.
    pose proof (encode_codepoint_length c) as Hlen.
    replace (List.length pre =? _)%nat with false
      by (symmetry; apply Nat.eqb_neq; rewrite !length_app; lia).
    cbn [negb reason new_position codepoint has_explanation no_reason
         explanation].
    rewrite app_assoc. apply IH. simpl in Hfuel. lia.
Qed.

Lemma decode_all_encode sgn cs :
  Forall in_unicode_range cs ->
  forall pre fuel cp0,
    (List.length cs < fuel)%nat ->
    decode_all sgn fuel (pre ++ encode cs) (List.length pre)
               (List.length (pre ++ encode cs)) cp0
    = Some cs.
Proof.
  induction 1 as [|c cs Hc _ IH]; intros pre fuel cp0 Hfuel;
    (destruct fuel as [|fuel]; [simpl in Hfuel; lia|]).
  - simpl. rewrite app_nil_r, Nat.eqb_refl. reflexivity.
  - rewrite encode_cons. cbn [decode_all].
    rewrite next_codepoint_encode by exact Hc.
    pose proof (encode_codepoint_length c) as Hlen.
    replace (List.length pre =? _)%nat with false
      by (symmetry; apply Nat.eqb_neq; rewrite !length_app; lia).
    cbn [reason new_position codepoint has_explanation no_reason explanation].
    rewrite app_assoc, IH by (simpl in Hfuel; lia). reflexivity.
Qed.

Lemma encode_length cs : (List.length cs <= List.length (encode cs))%nat.
Proof.
  induction cs as [|c cs IH]; [simpl; lia|].
  rewrite encode_cons, length_app.
  pose proof (encode_codepoint_length c). simpl. lia.
Qed.

Lemma encode_is_valid sgn indet cs :
  Forall in_unicode_range cs -> is_valid sgn indet (encode cs) = Some true.
Proof.
  intros Hcs. pose proof (encode_length cs) as Hlen.
  unfold is_valid, is_valid_internal. rewrite Nat.sub_0_r.
  destruct (is_valid_loop_encode sgn cs Hcs [] (S (List.length (encode cs)))
              0%nat indet no_reason ltac:(lia)) as [r Hr].
  cbn [app] in Hr. change (@List.length byte []) with 0%nat in Hr.
  rewrite Hr. reflexivity.
Qed.

(** Read by value.  For every finite sequence [cs] of values in [0, 0x10FFFF], the
    buffer a UTF-8 encoder produces from [cs] is accepted by [is_valid],
    and decoding it codepoint by codepoint with [next_codepoint] yields
    exactly [cs], in order. *)
Theorem encode_is_valid_and_round_trips sgn indet cs :
  Forall in_unicode_range cs ->
  is_valid sgn indet (encode cs) = Some true
  /\ decode_all sgn (S (List.length (encode cs))) (encode cs) 0
                (List.length (encode cs)) indet
     = Some cs.
Proof.
  intros Hcs. pose proof (encode_length cs) as Hlen. split.
  - apply encode_is_valid. exact Hcs.
  - apply (decode_all_encode sgn cs Hcs []). lia.
Qed.

Lemma skipn_deref (buf : list char) start :
  (start < List.length buf)%nat ->
  skipn start buf = deref buf start :: skipn (S start) buf.
Proof.
  revert start. induction buf as [|b buf IH]; intros start Hlt;
    [simpl in Hlt; lia|].
  destruct start as [|start]; [reflexivity|].
  cbn [skipn deref nth List.length] in *. apply IH. lia.
Qed.

Lemma byte_of_Z_deref (buf : list char) k z :
  z = bv buf k -> byte_of_Z z = deref buf k.
Proof. intros ->. apply byte_of_Z_val. Qed.

(** A well-formed sequence is the encoding of its value. *)
Lemma decodes_is_encoding buf start end_ np cp :
  decodes buf start end_ np cp ->
  (end_ <= List.length buf)%nat ->
  in_unicode_range cp /\ consumed buf start np = encode_codepoint cp.
Proof.
  unfold consumed, in_unicode_range.
  intros H Hend. pose proof (byte_val_range (deref buf start)) as R0.
  destruct H; unfold cont_val in *; fold (bv buf start) in R0.
  - split; [lia|].
    replace (S start - start)%nat with 1%nat by lia.
    rewrite skipn_deref by lia. cbn [firstn].
    rewrite encode_codepoint_arith by lia. repeat split_on_ltb.
    rewrite (byte_of_Z_deref buf start) by reflexivity. reflexivity.
  - split; [lia|].
    replace (S (S start) - start)%nat with 2%nat by lia.
    rewrite 2 skipn_deref by lia. cbn [firstn].
    rewrite encode_codepoint_arith by lia. repeat split_on_ltb.
    rewrite (byte_of_Z_deref buf start), (byte_of_Z_deref buf (S start))
      by arith.
    reflexivity.
  - split; [lia|].
    replace (S (S (S start)) - start)%nat with 3%nat by lia.
    rewrite 3 skipn_deref by lia. cbn [firstn].
    rewrite encode_codepoint_arith by lia. repeat split_on_ltb.
    rewrite (byte_of_Z_deref buf start), (byte_of_Z_deref buf (S start)),
      (byte_of_Z_deref buf (S (S start))) by arith.
    reflexivity.
  - split; [lia|].
    replace (S (S (S (S start))) - start)%nat with 4%nat by lia.
    rewrite 4 skipn_deref by lia. cbn [firstn].
    rewrite encode_codepoint_arith by lia. repeat split_on_ltb.
    rewrite (byte_of_Z_deref buf start), (byte_of_Z_deref buf (S start)),
      (byte_of_Z_deref buf (S (S start))),
      (byte_of_Z_deref buf (S (S (S start)))) by arith.
    reflexivity.
Qed.

(** ** Progress and termination *)

Lemma is_continuation_iff sgn c :
  is_continuation sgn c = true <-> cont_val (byte_val c).
Proof.
  rewrite is_continuation_val, andb_true_iff, Z.leb_le, Z.ltb_lt.
  unfold cont_val. tauto.
Qed.

Lemma is_continuation_false_iff sgn c :
  is_continuation sgn c = false <-> ~ cont_val (byte_val c).
Proof.
  rewrite <- is_continuation_iff with (sgn := sgn).
  destruct (is_continuation sgn c); split; congruence.
Qed.

Lemma failure_has_explanation buf start end_ expl pos :
  failure buf start end_ expl pos ->
  has_explanation (reason (fail expl start pos)) = true.
Proof. destruct 1; reflexivity. Qed.

Lemma failure_bounds buf start end_ expl pos :
  failure buf start end_ expl pos -> (start < pos <= end_)%nat.
Proof. destruct 1; lia. Qed.

Lemma decodes_bounds buf start end_ np cp :
  decodes buf start end_ np cp -> (start < np <= end_)%nat.
Proof. destruct 1; lia. Qed.

Lemma next_codepoint_progress sgn buf start end_ cp0 :
  (start < end_)%nat ->
  (start < new_position (next_codepoint sgn buf start end_ cp0) <= end_)%nat.
Proof.
  intros Hlt.
  destruct (next_codepoint_shape sgn buf start end_ cp0 _ Hlt eq_refl)
    as [(expl & pos & -> & Hf) | [_ Hd]].
  - apply failure_bounds in Hf. exact Hf.
  - apply decodes_bounds in Hd. exact Hd.
Qed.

Lemma is_valid_loop_terminates sgn buf begin end_ fuel :
  forall cbegin cp0 r0,
    (cbegin <= end_)%nat ->
    (end_ - cbegin < fuel)%nat ->
    exists ok r,
      is_valid_loop sgn fuel buf begin end_ cbegin cp0 r0 = Some (ok, r).
Proof.
  induction fuel as [|fuel IH]; intros cbegin cp0 r0 Hle Hfuel; [lia|].
  cbn [is_valid_loop].
  destruct (Nat.eqb_spec cbegin end_) as [->|Hne]; cbn [negb].
  - exists true, r0. reflexivity.
  - destruct (has_explanation _).
    + eexists _, _. reflexivity.
    + pose proof (next_codepoint_progress sgn buf cbegin end_ cp0
                    ltac:(lia)) as Hp.
      apply IH; lia.
Qed.

(** More fuel does not change a result. *)
Lemma is_valid_loop_fuel sgn buf begin end_ fuel :
  forall fuel' cbegin cp0 r0 res,
    (fuel <= fuel')%nat ->
    is_valid_loop sgn fuel buf begin end_ cbegin cp0 r0 = Some res ->
    is_valid_loop sgn fuel' buf begin end_ cbegin cp0 r0 = Some res.
Proof.
  induction fuel as [|fuel IH]; intros fuel' cbegin cp0 r0 res Hle H;
    [discriminate H|].
  destruct fuel' as [|fuel']; [lia|].
  cbn [is_valid_loop] in *.
  destruct (negb (cbegin =? end_)%nat); [|exact H].
  destruct (has_explanation _); [exact H|].
  apply IH; [lia|exact H].
Qed.

(** The offset [fail] computes is never negative. *)
Lemma reason_position_bounds sgn buf start end_ cp0 :
  (start < end_)%nat ->
  0 <= position (reason (next_codepoint sgn buf start end_ cp0))
    < Z.of_nat end_ - Z.of_nat start.
Proof.
  intros Hlt.
  destruct (next_codepoint_shape sgn buf start end_ cp0 _ Hlt eq_refl)
    as [(expl & pos & -> & Hf) | [-> _]].
  - apply failure_bounds in Hf. cbn. lia.
  - cbn. lia.
Qed.

(** Read by value.  On every non-empty range [next_codepoint] returns a position
    strictly greater than the one it started from (and not beyond the end),
    whether it succeeds or fails; consequently the scan of a range
    terminates: [is_valid_internal], which allows one loop test per byte
    plus one, always returns a result, and no larger allowance changes
    it. *)
Theorem decoder_advances_and_scan_terminates sgn indet buf :
  (forall start end_ cp0,
      (start < end_)%nat ->
      (start < new_position (next_codepoint sgn buf start end_ cp0)
       <= end_)%nat)
  /\ (forall begin end_ r0,
         (begin <= end_)%nat ->
         exists ok r,
           is_valid_internal sgn indet buf begin end_ r0 = Some (ok, r)
           /\ forall fuel,
                (S (end_ - begin) <= fuel)%nat ->
                is_valid_loop sgn fuel buf begin end_ begin indet r0
                = Some (ok, r)).
Proof.
  split.
  - intros start end_ cp0 Hlt. apply next_codepoint_progress. exact Hlt.
  - intros begin end_ r0 Hle. unfold is_valid_internal.
    destruct (is_valid_loop_terminates sgn buf begin end_ (S (end_ - begin))
                begin indet r0 Hle ltac:(lia)) as (ok & r & Hr).
    exists ok, r. split; [exact Hr|].
    intros fuel Hfuel. apply (is_valid_loop_fuel sgn buf begin end_ _ _ _ _ _
                                _ Hfuel Hr).
Qed.

(** ** Where a failing call stops *)

Lemma failure_offset expl start pos :
  Z.of_nat (new_position (fail expl start pos))
  = Z.of_nat start + position (reason (fail expl start pos)) + 1.
Proof. cbn. lia. Qed.


(** C6. On a non-empty range the explanation is empty exactly when the
    codepoint returned is a genuine decoded value: the value of a
    well-formed sequence that starts at [start] within the range, so that
    bytes of the range from [start] on are the encoding of the codepoint.
    Otherwise the call failed, and then the codepoint is U+FFFD.  (The
    statement is about the two out-parameters; the iterator handed back
    does not occur in it.) *)
Theorem empty_explanation_iff_genuine_codepoint sgn buf start end_ cp0 :
  (start < end_ <= List.length buf)%nat ->
  let d := next_codepoint sgn buf start end_ cp0 in
  (has_explanation (reason d) = false
   <-> exists np, decodes buf start end_ np (codepoint d))
  /\ (has_explanation (reason d) = false ->
      in_unicode_range (codepoint d)
      /\ exists np, (start < np <= end_)%nat
                    /\ consumed buf start np = encode_codepoint (codepoint d))
  /\ (has_explanation (reason d) = true -> codepoint d = REPLACEMENT).
Proof.
  intros [Hlt Hend] d. subst d.
  destruct (next_codepoint_shape sgn buf start end_ cp0 _ Hlt eq_refl)
    as [(expl & pos & E & Hf) | [E Hd]].
  - pose proof (failure_has_explanation _ _ _ _ _ Hf) as Hx.
    rewrite <- E in Hx. split; [split|split].
    + intros Hno. rewrite Hno in Hx. discriminate Hx.
    + intros [np Hd]. rewrite (decodes_sound sgn _ _ _ _ _ cp0 Hd) in Hx.
      discriminate Hx.
    + intros Hno. rewrite Hno in Hx. discriminate Hx.
    + intros _. rewrite E. reflexivity.
  - split; [split|split].
    + intros _. eexists. exact Hd.
    + intros _. unfold has_explanation. rewrite E. reflexivity.
    + intros _. destruct (decodes_is_encoding _ _ _ _ _ Hd Hend) as [Hr Hc].
      split; [exact Hr|]. eexists. split; [|exact Hc].
      exact (decodes_bounds _ _ _ _ _ Hd).
    + unfold has_explanation. rewrite E. discriminate.
Qed.

(** ** Truncated sequences *)

Lemma truncated_fails sgn buf start end_ cp0 :
  truncated sgn buf start end_ ->
  next_codepoint sgn buf start end_ cp0 = fail END_OF_STRING start end_.
Proof.
  unfold truncated, continuation_bytes_needed.
  intros (Hlt & Hn & Hc).
  pose proof (Hc (S start)) as H1. pose proof (Hc (S (S start))) as H2.
  rewrite is_continuation_iff in H1, H2. unfold cont_val in H1, H2.
  clear Hc. revert Hn.
  rewrite is_twobyte_start_val, is_threebyte_start_val, is_fourbyte_start_val.
  open_decoder.
  destruct (Z.leb_spec 0xC0 (byte_val (deref buf start)));
    destruct (Z.ltb_spec (byte_val (deref buf start)) 0xE0);
    destruct (Z.leb_spec 0xE0 (byte_val (deref buf start)));
    destruct (Z.ltb_spec (byte_val (deref buf start)) 0xF0);
    destruct (Z.leb_spec 0xF0 (byte_val (deref buf start)));
    destruct (Z.ltb_spec (byte_val (deref buf start)) 0xF8);
    cbn [andb]; intros Hn; try (exfalso; lia);
    repeat step_decoder; subst; reflexivity.
Qed.

(** C4, as amended.  When a multi-byte sequence is truncated by the end of
    the range, [next_codepoint] fails with "saw end of string" and reports
    the offset of the last available byte, [end - start - 1]: for
    [0xE0, 0x80] that offset is 1. *)
Theorem truncated_sequence_reports_last_available_byte sgn buf start end_ cp0 :
  truncated sgn buf start end_ ->
  let d := next_codepoint sgn buf start end_ cp0 in
  explanation (reason d) = END_OF_STRING
  /\ position (reason d) = Z.of_nat end_ - Z.of_nat start - 1
  /\ reason (next_codepoint sgn [xe0; x80] 0 2 cp0)
     = {| explanation := END_OF_STRING; position := 1 |}.
Proof.
  intros Ht d. subst d. rewrite (truncated_fails _ _ _ _ _ Ht).
  repeat split. destruct sgn; reflexivity.
Qed.

(** ** Particular inputs *)

(** C5, as amended.  Decoding [0xC0, 0x80] fails with "Overlong encoding
    seen"; the offset reported is 1, that of the last byte consumed, and the
    scanner reports the same. *)
Theorem overlong_nul_fails_at_offset_one sgn indet cp0 r0 :
  next_codepoint sgn [xc0; x80] 0 2 cp0
  = {| new_position := 2; codepoint := REPLACEMENT;
       reason := {| explanation := OVERLONG; position := 1 |} |}
  /\ is_valid_reason sgn indet [xc0; x80] r0
     = Some (false, {| explanation := OVERLONG; position := 1 |}).
Proof. destruct sgn; split; reflexivity. Qed.

(** C8. Decoding [0xF4, 0x90, 0x80, 0x80], whose bits spell 0x110000, fails
    with "Non-Unicode character encoded (beyond U+10FFFF)" at offset 3, the
    offset of the last byte consumed. *)
Theorem beyond_unicode_fails_at_offset_three sgn indet cp0 r0 :
  next_codepoint sgn [xf4; x90; x80; x80] 0 4 cp0
  = {| new_position := 4; codepoint := REPLACEMENT;
       reason := {| explanation := BEYOND_UNICODE; position := 3 |} |}
  /\ Z.lor (Z.lor (Z.lor (extract_and_shift sgn xf4 HIGH_FIVE_BITS 18)
                         (shl32 (continuation_data sgn x90) 12))
                  (shl32 (continuation_data sgn x80) 6))
           (continuation_data sgn x80) = 0x110000
  /\ is_valid_reason sgn indet [xf4; x90; x80; x80] r0
     = Some (false, {| explanation := BEYOND_UNICODE; position := 3 |}).
Proof. destruct sgn; repeat split; reflexivity. Qed.

(** ** Cursor *)

(** C9. On a cursor that has not seen the end and whose position is the end
    (as on an empty buffer), [advance] sets [seen_end], sets the last
    codepoint to 0 and the reason to empty, and decodes nothing: the
    position stays.  On a cursor that has seen the end, [advance] changes
    nothing. *)
Theorem advance_at_end_exhausts_then_is_idle sgn buf it :
  (seen_end it = false -> it_position it = it_end it ->
   advance sgn buf it
   = {| it_start := it_start it; it_position := it_position it;
        it_end := it_end it; last_seen := 0; it_reason := no_reason;
        seen_end := true |})
  /\ (seen_end it = true -> advance sgn buf it = it).
Proof.
  split.
  - intros Hseen Hpos. unfold advance.
    rewrite Hseen, Hpos, Nat.eqb_refl. reflexivity.
  - intros Hseen. unfold advance. rewrite Hseen. reflexivity.
Qed.

(** ** Surrogates *)

Lemma surrogate_in_range c : is_surrogate c -> in_unicode_range c.
Proof. unfold is_surrogate, in_unicode_range. lia. Qed.

Lemma encode_surrogate c :
  is_surrogate c ->
  encode_codepoint c
  = [xed; byte_of_Z (0x80 + (c / 64) mod 64); byte_of_Z (0x80 + c mod 64)].
Proof.
  unfold is_surrogate. intros Hc. rewrite encode_codepoint_arith by lia.
  repeat split_on_ltb.
  replace (0xE0 + c / 4096) with 0xED by arith. reflexivity.
Qed.

(** Read by value.  Surrogate values are not rejected.  The encoding of a value in
    [0xD800, 0xDFFF] is three bytes, the first 0xED and the second in
    0xA0..0xBF; [next_codepoint] decodes it with an empty reason and returns
    that value.  [is_valid] accepts a buffer made of such sequences.  For
    instance [0xED, 0xA0, 0x80] decodes to 0xD800. *)
Theorem surrogates_are_accepted sgn indet :
  (forall c cp0,
      is_surrogate c ->
      (exists b1 b2, encode_codepoint c = [xed; b1; b2]
                     /\ 0xA0 <= byte_val b1 < 0xC0)
      /\ next_codepoint sgn (encode_codepoint c) 0 3 cp0
         = {| new_position := 3; codepoint := c; reason := no_reason |})
  /\ (forall cs, Forall is_surrogate cs ->
                 is_valid sgn indet (encode cs) = Some true)
  /\ (forall cp0,
         next_codepoint sgn [xed; xa0; x80] 0 3 cp0
         = {| new_position := 3; codepoint := 0xD800; reason := no_reason |}).
Proof.
  split; [|split].
  - intros c cp0 Hc. split.
    + rewrite (encode_surrogate c Hc). eexists _, _. split; [reflexivity|].
      rewrite byte_val_of_Z; unfold is_surrogate in Hc; arith.
    + pose proof (next_codepoint_encode sgn c [] [] cp0
                    (surrogate_in_range c Hc)) as H.
      rewrite app_nil_r in H. cbn [app] in H.
      rewrite (encode_surrogate c Hc) in H |- *. exact H.
  - intros cs Hcs. apply encode_is_valid.
    eapply Forall_impl; [|exact Hcs]. exact surrogate_in_range.
  - intros cp0. destruct sgn; reflexivity.
Qed.

(** ** Textual elements *)

Lemma next_codepoint_cp0 sgn buf start end_ cp0 cp0' :
  start <> end_ ->
  next_codepoint sgn buf start end_ cp0
  = next_codepoint sgn buf start end_ cp0'.
Proof.
  intros Hne. cbv beta zeta delta [next_codepoint].
  destruct (Nat.eqb_spec start end_); [contradiction|reflexivity].
Qed.

Lemma next_textual_element_loop_total sgn buf begin end_ keep_going fuel :
  forall cbegin cp0 calls,
    (begin <= cbegin < end_)%nat ->
    (end_ - cbegin < fuel)%nat ->
    Forall (after_begin begin) calls ->
    exists e,
      next_textual_element_loop sgn fuel buf begin end_ keep_going
                                cbegin cp0 calls = Some e
      /\ (new_position (next_codepoint sgn buf cbegin end_ cp0) <= elem_end e
          \/ (cbegin <> begin /\ cbegin <= elem_end e))%nat
      /\ (elem_end e <= end_)%nat
      /\ Forall (after_begin begin) (consulted e).
Proof.
  induction fuel as [|fuel IH]; intros cbegin cp0 calls Hc Hfuel Hcalls;
    [lia|].
  cbn [next_textual_element_loop].
  pose proof (next_codepoint_progress sgn buf cbegin end_ cp0 ltac:(lia))
    as Hp.
  set (d := next_codepoint sgn buf cbegin end_ cp0) in *.
  destruct (has_explanation (reason d)).
  { destruct (Nat.eqb_spec cbegin begin) as [E|E];
      eexists; (split; [reflexivity|]); cbn [elem_end consulted];
      repeat split; try assumption; lia. }
  assert (Hcont : forall calls1,
             Forall (after_begin begin) calls1 ->
             exists e,
               (if negb (new_position d =? end_)%nat
                then next_textual_element_loop sgn fuel buf begin end_
                       keep_going (new_position d) (codepoint d) calls1
                else Some {| elem_end := new_position d;
                             elem_reason := reason d;
                             consulted := calls1 |}) = Some e
               /\ (new_position d <= elem_end e <= end_)%nat
               /\ Forall (after_begin begin) (consulted e)).
  { intros calls1 Hcalls1.
    destruct (Nat.eqb_spec (new_position d) end_) as [E|E]; cbn [negb].
    - eexists. split; [reflexivity|]. cbn [elem_end consulted].
      split; [lia|assumption].
    - destruct (IH (new_position d) (codepoint d) calls1 ltac:(lia)
                  ltac:(lia) Hcalls1) as (e & He & Hpos & Hend & Hcons).
      exists e. split; [exact He|]. split; [|exact Hcons].
      pose proof (next_codepoint_progress sgn buf (new_position d) end_
                    (codepoint d) ltac:(lia)). lia. }
  destruct (Nat.eqb_spec cbegin begin) as [E|E]; cbn [negb].
  - destruct (Hcont calls Hcalls) as (e & He & Hpos & Hcons).
    exists e. split; [exact He|]. split; [left; lia|].
    split; [lia|exact Hcons].
  - assert (Hcalls1 : Forall (after_begin begin)
                             (calls ++ [(cbegin, codepoint d)])).
    { apply Forall_app. split; [exact Hcalls|].
      constructor; [|constructor]. unfold after_begin. cbn. lia. }
    destruct (keep_going (codepoint d)); cbn [negb].
    + destruct (Hcont _ Hcalls1) as (e & He & Hpos & Hcons).
      exists e. split; [exact He|]. split; [left; lia|].
      split; [lia|exact Hcons].
    + eexists. split; [reflexivity|]. cbn [elem_end consulted].
      split; [right; lia|]. split; [lia|exact Hcalls1].
Qed.

Lemma absorbs_bounds buf begin end_ keep_going c k :
  absorbs buf begin end_ keep_going c k ->
  k = c \/ (c < k < end_)%nat.
Proof.
  induction 1 as [c | c np cp k Hd _ Hnp _ IH]; [left; reflexivity|].
  apply decodes_bounds in Hd. right. lia.
Qed.

Lemma next_textual_element_loop_absorbs sgn buf begin end_ keep_going c k :
  absorbs buf begin end_ keep_going c k ->
  forall fuel cp0 calls,
    (end_ - c < fuel)%nat ->
    exists fuel' cp' calls',
      (end_ - k < fuel')%nat
      /\ next_textual_element_loop sgn fuel buf begin end_ keep_going
                                   c cp0 calls
         = next_textual_element_loop sgn fuel' buf begin end_ keep_going
                                     k cp' calls'.
Proof.
  induction 1 as [c | c np cp k Hd Hkeep Hnp _ IH];
    intros fuel cp0 calls Hfuel.
  - exists fuel, cp0, calls. split; [exact Hfuel|reflexivity].
  - destruct fuel as [|fuel]; [lia|].
    pose proof (decodes_bounds _ _ _ _ _ Hd) as Hb.
    cbn [next_textual_element_loop].
    rewrite (decodes_sound sgn _ _ _ _ _ cp0 Hd).
    cbn [reason new_position codepoint has_explanation no_reason explanation].
    replace (np =? end_)%nat with false
      by (symmetry; apply Nat.eqb_neq; lia).
    destruct (Nat.eqb_spec c begin) as [E|E]; cbn [negb].
    + apply IH. lia.
    + destruct Hkeep as [Hkeep|Hkeep]; [contradiction|].
      rewrite Hkeep. cbn [negb]. apply IH. lia.
Qed.

(** Read by value.  On a non-empty range, for every predicate, [next_textual_element]
    returns an element that reaches at least the end of the first decoded
    codepoint, and every call of the predicate it made was about a codepoint
    that starts after [begin]: the first one is taken without asking.  And
    when the element has absorbed codepoints up to [k], past [begin], and
    decoding at [k] fails, the position returned is [k], the start of the
    failing codepoint, and the reason is that failure, its offset counted
    from [begin]. *)
Theorem first_codepoint_is_free_and_later_failure_is_left_out
    sgn indet buf begin end_ keep_going :
  (begin < end_)%nat ->
  (exists e,
      next_textual_element sgn indet buf begin end_ keep_going = Some e
      /\ (begin < new_position (next_codepoint sgn buf begin end_ indet)
          <= elem_end e)%nat
      /\ Forall (after_begin begin) (consulted e))
  /\ (forall k cpk,
         absorbs buf begin end_ keep_going begin k ->
         k <> begin ->
         let d := next_codepoint sgn buf k end_ cpk in
         has_explanation (reason d) = true ->
         exists e,
           next_textual_element sgn indet buf begin end_ keep_going = Some e
           /\ elem_end e = k
           /\ elem_reason e
              = {| explanation := explanation (reason d);
                   position := position (reason d)
                               + (Z.of_nat k - Z.of_nat begin) |}).
Proof.
  intros Hlt. unfold next_textual_element. split.
  - destruct (next_textual_element_loop_total sgn buf begin end_ keep_going
                (S (end_ - begin)) begin indet [] ltac:(lia) ltac:(lia)
                (Forall_nil _)) as (e & He & Hpos & Hend & Hcons).
    exists e. split; [exact He|]. split; [|exact Hcons].
    pose proof (next_codepoint_progress sgn buf begin end_ indet Hlt).
    destruct Hpos as [Hpos|[Hne _]]; [lia|contradiction].
  - intros k cpk Habs Hk Hfail.
    destruct (absorbs_bounds _ _ _ _ _ _ Habs) as [E|Hb]; [contradiction|].
    destruct (next_textual_element_loop_absorbs sgn _ _ _ _ _ _ Habs
                (S (end_ - begin)) indet [] ltac:(lia))
      as (fuel' & cp' & calls' & Hfuel' & ->).
    destruct fuel' as [|fuel']; [lia|].
    cbn [next_textual_element_loop].
    rewrite (next_codepoint_cp0 sgn buf k end_ cp' cpk) by lia.
    rewrite Hfail.
    replace (k =? begin)%nat with false
      by (symmetry; apply Nat.eqb_neq; exact Hk).
    eexists. split; [reflexivity|]. split; reflexivity.
Qed.

(** ** Further inputs listed by the specification *)

Example lone_continuation_byte sgn cp0 :
  next_codepoint sgn [x80] 0 1 cp0 = fail INVALID_INITIAL 0 1.
Proof. destruct sgn; reflexivity. Qed.

Example overlong_three_bytes sgn cp0 :
  reason (next_codepoint sgn [xe0; x80; x80] 0 3 cp0)
  = {| explanation := OVERLONG; position := 2 |}.
Proof. destruct sgn; reflexivity. Qed.

Example five_byte_lead sgn cp0 :
  next_codepoint sgn [xf8; x88; x80; x80; x80] 0 5 cp0
  = fail INVALID_INITIAL 0 1.
Proof. destruct sgn; reflexivity. Qed.

Example empty_range sgn buf start cp0 :
  next_codepoint sgn buf start start cp0
  = {| new_position := start; codepoint := cp0; reason := no_reason |}.
Proof.
  cbv beta zeta delta [next_codepoint]. rewrite Nat.eqb_refl. reflexivity.
Qed.

Example empty_buffer_is_valid sgn indet :
  is_valid sgn indet [] = Some true.
Proof. reflexivity. Qed.

Example scan_reports_absolute_offset sgn indet r0 :
  is_valid_reason sgn indet [x41; x42; xe0; x80; x43] r0
  = Some (false, {| explanation := SOMETHING_ELSE; position := 3 |}).
Proof. destruct sgn; reflexivity. Qed.

(** * Instances *)

(** ** The statements the code does not satisfy, at particular inputs *)


(** C4, as the specification has it, fails on [0xE0, 0x80]: the offset
    reported is 1, not 2. *)
Lemma reports_offset_past_last_byte_fails :
  ~ reports_offset_past_last_byte true [xe0; x80] 0 2 0
  /\ ~ reports_offset_past_last_byte false [xe0; x80] 0 2 0.
Proof.
  split; intros H.
  - assert (Ht : truncated true [xe0; x80] 0 2).
    { split; [lia|]. split; [vm_compute; lia|].
      intros k Hk. assert (k = 1%nat) as -> by lia. reflexivity. }
    destruct (H Ht) as [_ Hpos]. vm_compute in Hpos. discriminate Hpos.
  - assert (Ht : truncated false [xe0; x80] 0 2).
    { split; [lia|]. split; [vm_compute; lia|].
      intros k Hk. assert (k = 1%nat) as -> by lia. reflexivity. }
    destruct (H Ht) as [_ Hpos]. vm_compute in Hpos. discriminate Hpos.
Qed.

(** C5, as the specification has it, fails: the offset reported for
    [0xC0, 0x80] is 1, not 0. *)
Lemma overlong_nul_at_offset_zero_fails :
  ~ overlong_nul_at_offset_zero true 0
  /\ ~ overlong_nul_at_offset_zero false 0.
Proof.
  split; intros H; vm_compute in H; discriminate H.
Qed.

(** ** The theorems at particular inputs *)

(** The round trip on "A", the euro sign, U+10FFFF and a surrogate. *)
Lemma encode_round_trip_witness :
  Forall in_unicode_range [0x41; 0x20AC; 0x10FFFF; 0xD800]
  /\ is_valid true 0 (encode [0x41; 0x20AC; 0x10FFFF; 0xD800]) = Some true
  /\ decode_all true
       (S (List.length (encode [0x41; 0x20AC; 0x10FFFF; 0xD800])))
       (encode [0x41; 0x20AC; 0x10FFFF; 0xD800]) 0
       (List.length (encode [0x41; 0x20AC; 0x10FFFF; 0xD800])) 0
     = Some [0x41; 0x20AC; 0x10FFFF; 0xD800].
Proof.
  assert (H : Forall in_unicode_range [0x41; 0x20AC; 0x10FFFF; 0xD800])
    by (repeat constructor; unfold in_unicode_range; lia).
  exact (conj H (encode_is_valid_and_round_trips true 0 _ H)).
Defined.

(** Progress and termination on an invalid lead byte followed by "A". *)
Lemma decoder_advances_witness :
  (0 < 2)%nat
  /\ (0 <= 2)%nat
  /\ (0 < new_position (next_codepoint true [xff; x41] 0 2 0) <= 2)%nat
  /\ exists ok r,
       is_valid_internal true 0 [xff; x41] 0 2 no_reason = Some (ok, r)
       /\ forall fuel,
            (S (2 - 0) <= fuel)%nat ->
            is_valid_loop true fuel [xff; x41] 0 2 0 0 no_reason
            = Some (ok, r).
Proof.
  assert (H1 : (0 < 2)%nat) by lia.
  assert (H2 : (0 <= 2)%nat) by lia.
  exact (conj H1 (conj H2 (conj
    (proj1 (decoder_advances_and_scan_terminates true 0 [xff; x41])
           0%nat 2%nat 0 H1)
    (proj2 (decoder_advances_and_scan_terminates true 0 [xff; x41])
           0%nat 2%nat no_reason H2)))).
Defined.


(** A three-byte lead with one continuation byte, then the end. *)
Lemma truncated_sequence_witness :
  truncated true [xe0; x80] 0 2
  /\ let d := next_codepoint true [xe0; x80] 0 2 0 in
     explanation (reason d) = END_OF_STRING
     /\ position (reason d) = Z.of_nat 2 - Z.of_nat 0 - 1
     /\ reason (next_codepoint true [xe0; x80] 0 2 0)
        = {| explanation := END_OF_STRING; position := 1 |}.
Proof.
  assert (Ht : truncated true [xe0; x80] 0 2).
  { split; [lia|]. split; [vm_compute; lia|].
    intros k Hk. assert (k = 1%nat) as -> by lia. reflexivity. }
  exact (conj Ht
    (truncated_sequence_reports_last_available_byte true [xe0; x80] 0 2 0
       Ht)).
Defined.

(** The euro sign, 0xE2 0x82 0xAC. *)
Lemma genuine_codepoint_witness :
  (0 < 3 <= List.length [xe2; x82; xac])%nat
  /\ let d := next_codepoint true [xe2; x82; xac] 0 3 0 in
     (has_explanation (reason d) = false
      <-> exists np, decodes [xe2; x82; xac] 0 3 np (codepoint d))
     /\ (has_explanation (reason d) = false ->
         in_unicode_range (codepoint d)
         /\ exists np, (0 < np <= 3)%nat
                       /\ consumed [xe2; x82; xac] 0 np
                          = encode_codepoint (codepoint d))
     /\ (has_explanation (reason d) = true -> codepoint d = REPLACEMENT).
Proof.
  assert (H : (0 < 3 <= List.length [xe2; x82; xac])%nat) by (simpl; lia).
  exact (conj H
    (empty_explanation_iff_genuine_codepoint true [xe2; x82; xac] 0 3 0 H)).
Defined.

(** "AB", then a three-byte lead whose second continuation byte is
    missing: the element is "AB" and the failure is reported at offset 3. *)
Lemma textual_element_witness :
  (0 < 5)%nat
  /\ absorbs [x41; x42; xe0; x80; x43] 0 5 (fun _ => true) 0 2
  /\ 2%nat <> 0%nat
  /\ has_explanation
       (reason (next_codepoint true [x41; x42; xe0; x80; x43] 2 5 0)) = true
  /\ (exists e,
         next_textual_element true 0 [x41; x42; xe0; x80; x43] 0 5
                              (fun _ => true) = Some e
         /\ (0 < new_position
                   (next_codepoint true [x41; x42; xe0; x80; x43] 0 5 0)
             <= elem_end e)%nat
         /\ Forall (after_begin 0) (consulted e))
  /\ (exists e,
         next_textual_element true 0 [x41; x42; xe0; x80; x43] 0 5
                              (fun _ => true) = Some e
         /\ elem_end e = 2%nat
         /\ elem_reason e
            = {| explanation :=
                   explanation
                     (reason (next_codepoint true [x41; x42; xe0; x80; x43]
                                             2 5 0));
                 position :=
                   position
                     (reason (next_codepoint true [x41; x42; xe0; x80; x43]
                                             2 5 0))
                   + (Z.of_nat 2 - Z.of_nat 0) |}).
Proof.
  assert (H1 : (0 < 5)%nat) by lia.
  assert (H2 : absorbs [x41; x42; xe0; x80; x43] 0 5 (fun _ => true) 0 2).
  { apply (absorbs_step _ _ _ _ 0%nat 1%nat 0x41 2%nat).
    - refine (decodes_one [x41; x42; xe0; x80; x43] 0 5 _ _);
        [lia | reflexivity].
    - left. reflexivity.
    - lia.
    - apply (absorbs_step _ _ _ _ 1%nat 2%nat 0x42 2%nat).
      + refine (decodes_one [x41; x42; xe0; x80; x43] 1 5 _ _);
          [lia | reflexivity].
      + right. reflexivity.
      + lia.
      + apply absorbs_here. }
  assert (H3 : 2%nat <> 0%nat) by lia.
  assert (H4 : has_explanation
                 (reason (next_codepoint true [x41; x42; xe0; x80; x43]
                                         2 5 0)) = true) by reflexivity.
  exact (conj H1 (conj H2 (conj H3 (conj H4 (conj
    (proj1 (first_codepoint_is_free_and_later_failure_is_left_out
              true 0 [x41; x42; xe0; x80; x43] 0 5 (fun _ => true) H1))
    (proj2 (first_codepoint_is_free_and_later_failure_is_left_out
              true 0 [x41; x42; xe0; x80; x43] 0 5 (fun _ => true) H1)
           2%nat 0 H2 H3 H4)))))).
Defined.

(** A cursor on the empty buffer, before and after its first step. *)
Lemma advance_witness :
  seen_end (mk_iterator 0 0 0 7 no_reason false) = false
  /\ it_position (mk_iterator 0 0 0 7 no_reason false)
     = it_end (mk_iterator 0 0 0 7 no_reason false)
  /\ seen_end (mk_iterator 0 0 0 0 no_reason true) = true
  /\ advance true [] (mk_iterator 0 0 0 7 no_reason false)
     = mk_iterator 0 0 0 0 no_reason true
  /\ advance true [] (mk_iterator 0 0 0 0 no_reason true)
     = mk_iterator 0 0 0 0 no_reason true.
Proof.
  exact (conj eq_refl (conj eq_refl (conj eq_refl (conj
    (proj1 (advance_at_end_exhausts_then_is_idle true []
              (mk_iterator 0 0 0 7 no_reason false)) eq_refl eq_refl)
    (proj2 (advance_at_end_exhausts_then_is_idle true []
              (mk_iterator 0 0 0 0 no_reason true)) eq_refl))))).
Defined.

(** The ends of the high and low surrogate ranges. *)
Lemma surrogates_witness :
  is_surrogate 0xDFFF
  /\ Forall is_surrogate [0xD800; 0xDBFF; 0xDC00; 0xDFFF]
  /\ ((exists b1 b2, encode_codepoint 0xDFFF = [xed; b1; b2]
                     /\ 0xA0 <= byte_val b1 < 0xC0)
      /\ next_codepoint true (encode_codepoint 0xDFFF) 0 3 0
         = {| new_position := 3; codepoint := 0xDFFF; reason := no_reason |})
  /\ is_valid true 0 (encode [0xD800; 0xDBFF; 0xDC00; 0xDFFF]) = Some true.
Proof.
  assert (H1 : is_surrogate 0xDFFF) by (unfold is_surrogate; lia).
  assert (H2 : Forall is_surrogate [0xD800; 0xDBFF; 0xDC00; 0xDFFF])
    by (repeat constructor; unfold is_surrogate; lia).
  exact (conj H1 (conj H2 (conj
    (proj1 (surrogates_are_accepted true 0) 0xDFFF 0 H1)
    (proj1 (proj2 (surrogates_are_accepted true 0)) _ H2)))).
Defined.

(** * Further properties of the code *)

(** ** The classifier *)

(** Every byte below 0xF8 satisfies exactly one of [is_standalone],
    [is_twobyte_start], [is_threebyte_start], [is_fourbyte_start] and
    [is_continuation]; a byte from 0xF8 up satisfies none.  The order of
    the tests in [next_codepoint] is therefore immaterial. *)
Theorem classifier_partitions_bytes sgn c :
  classes_of sgn c = if byte_val c <? 0xF8 then 1%nat else 0%nat.
Proof. destruct sgn, c; reflexivity. Qed.

(** ** The decoder *)

(** [next_codepoint] reports "Invalid initial byte seen" exactly when the
    first byte of the range is a continuation byte (0x80..0xBF) or is
    0xF8 or more; the offset it then reports is 0 and the codepoint is
    U+FFFD. *)
Theorem invalid_initial_iff_lead_byte sgn buf start end_ cp0 :
  (start < end_)%nat ->
  (explanation (reason (next_codepoint sgn buf start end_ cp0))
   = INVALID_INITIAL
   <-> (0x80 <= bv buf start < 0xC0 \/ 0xF8 <= bv buf start))
  /\ (explanation (reason (next_codepoint sgn buf start end_ cp0))
      = INVALID_INITIAL ->
      position (reason (next_codepoint sgn buf start end_ cp0)) = 0
      /\ codepoint (next_codepoint sgn buf start end_ cp0) = REPLACEMENT).
Proof.
  intros Hlt. unfold bv.
  generalize (eq_refl (next_codepoint sgn buf start end_ cp0)).
  generalize (next_codepoint sgn buf start end_ cp0) at 2 3 4 5 6 as d.
  intros d. open_decoder. repeat step_decoder; intros <-;
    cbn [reason explanation position codepoint];
    (split; [split; [intros E; try discriminate E; arith
                    | intros E; try reflexivity; exfalso; arith]
            | intros E; try discriminate E]).
  all: split; [lia|reflexivity].
Qed.

(** *** Signedness of [char] *)

Lemma next_codepoint_signedness sgn sgn' buf start end_ cp0 :
  next_codepoint sgn buf start end_ cp0
  = next_codepoint sgn' buf start end_ cp0.
Proof.
  open_decoder. repeat step_decoder; try reflexivity.
  rewrite !to_unsigned_small by assumption. reflexivity.
Qed.

Lemma is_valid_loop_signedness sgn sgn' buf begin end_ fuel :
  forall cbegin cp0 r0,
    is_valid_loop sgn fuel buf begin end_ cbegin cp0 r0
    = is_valid_loop sgn' fuel buf begin end_ cbegin cp0 r0.
Proof.
  induction fuel as [|fuel IH]; intros cbegin cp0 r0; [reflexivity|].
  cbn [is_valid_loop].
  rewrite (next_codepoint_signedness sgn sgn'). rewrite IH. reflexivity.
Qed.

Lemma next_textual_element_loop_signedness
    sgn sgn' buf begin end_ keep_going fuel :
  forall cbegin cp0 calls,
    next_textual_element_loop sgn fuel buf begin end_ keep_going
                              cbegin cp0 calls
    = next_textual_element_loop sgn' fuel buf begin end_ keep_going
                                cbegin cp0 calls.
Proof.
  induction fuel as [|fuel IH]; intros cbegin cp0 calls; [reflexivity|].
  cbn [next_textual_element_loop].
  rewrite (next_codepoint_signedness sgn sgn').
  set (d := next_codepoint sgn' buf cbegin end_ cp0).
  destruct (has_explanation (reason d)); [reflexivity|].
  destruct (cbegin =? begin)%nat; cbn [negb];
    try destruct (keep_going (codepoint d)); cbn [negb];
    destruct (new_position d =? end_)%nat; cbn [negb]; rewrite ?IH;
    reflexivity.
Qed.

(** Whether plain [char] is signed or unsigned makes no difference to any
    result: the decoder, the scanner, the cursor step and the element
    scanner compute the same on both kinds of platform, although the
    classifier mixes [char] with [unsigned int]. *)
Theorem results_do_not_depend_on_char_signedness
    indet buf start end_ cp0 r0 it keep_going :
  next_codepoint true buf start end_ cp0
  = next_codepoint false buf start end_ cp0
  /\ is_valid_internal true indet buf start end_ r0
     = is_valid_internal false indet buf start end_ r0
  /\ advance true buf it = advance false buf it
  /\ next_textual_element true indet buf start end_ keep_going
     = next_textual_element false indet buf start end_ keep_going.
Proof.
  split; [apply next_codepoint_signedness|].
  split; [apply is_valid_loop_signedness|].
  split; [|apply next_textual_element_loop_signedness].
  unfold advance, saw_error.
  rewrite (next_codepoint_signedness true false). reflexivity.
Qed.

(** *** The decoder reads its range only *)

(** Uses the agreement [H] of two buffers at the offsets the range is
    known to hold. *)
Ltac agree_on H start :=
  try rewrite <- (H start) by lia;
  try rewrite <- (H (S start)) by lia;
  try rewrite <- (H (S (S start))) by lia;
  try rewrite <- (H (S (S (S start)))) by lia.

(** [next_codepoint] never reads outside [start, end): two buffers that
    agree on the range give the same result. *)
Theorem next_codepoint_reads_only_its_range sgn buf buf' start end_ cp0 :
  (start <= end_)%nat ->
  (forall k, (start <= k < end_)%nat -> deref buf k = deref buf' k) ->
  next_codepoint sgn buf start end_ cp0
  = next_codepoint sgn buf' start end_ cp0.
Proof.
  intros Hle H. open_decoder.
  repeat (agree_on H start; step_decoder); agree_on H start; reflexivity.
Qed.

(** *** Decoding does not depend on where the range lies *)

Lemma deref_app pre buf k :
  deref (pre ++ buf) (List.length pre + k) = deref buf k.
Proof. unfold deref. apply app_nth2_plus. Qed.

Lemma eqb_add_l p a b : (p + a =? p + b)%nat = (a =? b)%nat.
Proof.
  destruct (Nat.eqb_spec a b) as [->|Hne].
  - apply Nat.eqb_refl.
  - apply Nat.eqb_neq. lia.
Qed.

Lemma next_codepoint_shift sgn pre buf start end_ cp0 :
  next_codepoint sgn (pre ++ buf) (List.length pre + start)
                 (List.length pre + end_) cp0
  = relocate (List.length pre) (next_codepoint sgn buf start end_ cp0).
Proof.
  cbv beta zeta delta [next_codepoint is_valid_continuation_byte].
  rewrite <- !Nat.add_succ_r, !eqb_add_l, !deref_app.
  rewrite ?is_standalone_val, ?is_twobyte_start_val, ?is_threebyte_start_val,
    ?is_fourbyte_start_val, ?is_continuation_val.
  rewrite ?accumulate_two, ?accumulate_three, ?accumulate_four.
  repeat step_decoder; unfold relocate, fail;
    cbn [new_position codepoint reason]; try reflexivity;
    do 2 f_equal; lia.
Qed.

(** Decoding a range of a buffer that sits after [pre] gives what decoding
    the same range of the buffer alone gives, moved by the length of
    [pre]: the same codepoint and the same reason, whose offset is counted
    from the start of the call, not from the start of the buffer.  This is
    why the callers add [cbegin - begin] to the offset. *)
Theorem next_codepoint_relocates sgn pre buf start end_ cp0 :
  next_codepoint sgn (pre ++ buf) (List.length pre + start)
                 (List.length pre + end_) cp0
  = relocate (List.length pre) (next_codepoint sgn buf start end_ cp0).
Proof. apply next_codepoint_shift. Qed.

(** ** The validity scanner *)

Lemma firstn_consumed (buf : list char) start np :
  (start <= np)%nat ->
  firstn np buf = firstn start buf ++ consumed buf start np.
Proof.
  unfold consumed. intros Hle.
  replace np with (start + (np - start))%nat at 1 by lia.
  generalize (np - start)%nat as m. clear Hle np.
  revert buf. induction start as [|start IH]; intros buf m; [reflexivity|].
  destruct buf as [|b buf]; [destruct m; reflexivity|].
  cbn [Nat.add firstn skipn app]. rewrite IH. reflexivity.
Qed.

Lemma encode_app cs1 cs2 : encode (cs1 ++ cs2) = encode cs1 ++ encode cs2.
Proof. apply flat_map_app. Qed.

(** What the scanning loop returns, given that the bytes before [cbegin]
    are the encoding of [done]. *)
Lemma is_valid_loop_outcome sgn buf begin fuel :
  forall cbegin done cp0 r0 ok r,
    (cbegin <= List.length buf)%nat ->
    Forall in_unicode_range done ->
    firstn cbegin buf = encode done ->
    is_valid_loop sgn fuel buf begin (List.length buf) cbegin cp0 r0
    = Some (ok, r) ->
    if ok then
      (exists cs, Forall in_unicode_range cs /\ buf = encode cs)
      /\ (if (cbegin =? List.length buf)%nat then r = r0 else r = no_reason)
    else
      exists cs k,
        Forall in_unicode_range cs
        /\ firstn k buf = encode cs
        /\ (cbegin <= k < List.length buf)%nat
        /\ forall cp,
             let d := next_codepoint sgn buf k (List.length buf) cp in
             has_explanation (reason d) = true
             /\ r = {| explanation := explanation (reason d);
                      position := position (reason d)
                                  + (Z.of_nat k - Z.of_nat begin) |}.
Proof.
  induction fuel as [|fuel IH];
    intros cbegin done cp0 r0 ok r Hle Hdone Hpre H; [discriminate H|].
  cbn [is_valid_loop] in H.
  destruct (Nat.eqb_spec cbegin (List.length buf)) as [E|E]; cbn [negb] in H.
  - injection H as <- <-.
    split; [|reflexivity].
    exists done. split; [exact Hdone|].
    rewrite <- Hpre, E. symmetry. apply firstn_all.
  - assert (Hlt : (cbegin < List.length buf)%nat) by lia.
    remember (next_codepoint sgn buf cbegin (List.length buf) cp0) as d
      eqn:Hd0.
    destruct (next_codepoint_shape sgn buf cbegin (List.length buf) cp0 d
                Hlt (eq_sym Hd0)) as [(expl & pos & Ed & Hf) | [Ed Hd]].
    + pose proof (failure_has_explanation _ _ _ _ _ Hf) as Hx.
      rewrite <- Ed in Hx. rewrite Hx in H. injection H as <- <-.
      exists done, cbegin. split; [exact Hdone|]. split; [exact Hpre|].
      split; [lia|]. intros cp d'. subst d'.
      rewrite (next_codepoint_cp0 sgn buf cbegin _ cp cp0) by exact E.
      rewrite <- Hd0. split; [exact Hx|reflexivity].
    + assert (Hx : has_explanation (reason d) = false)
        by (unfold has_explanation; rewrite Ed; reflexivity).
      rewrite Hx in H.
      pose proof (decodes_bounds _ _ _ _ _ Hd) as Hb.
      destruct (decodes_is_encoding _ _ _ _ _ Hd (Nat.le_refl _))
        as [Hrange Henc].
      assert (Hdone' : Forall in_unicode_range (done ++ [codepoint d])).
      { apply Forall_app. split; [exact Hdone|].
        constructor; [exact Hrange|constructor]. }
      assert (Hpre' : firstn (new_position d) buf
                      = encode (done ++ [codepoint d])).
      { rewrite (firstn_consumed buf cbegin) by lia.
        rewrite encode_app, Hpre, Henc.
        cbn [encode flat_map]. rewrite app_nil_r. reflexivity. }
      specialize (IH (new_position d) (done ++ [codepoint d]) (codepoint d)
                    (reason d) ok r ltac:(lia) Hdone' Hpre' H).
      destruct ok.
      * destruct IH as [Hcs Hr]. split; [exact Hcs|].
        destruct (new_position d =? List.length buf)%nat;
          [rewrite Hr; exact Ed|exact Hr].
      * destruct IH as (cs & k & Hcs & Hk & Hkb & Hfail).
        exists cs, k. split; [exact Hcs|]. split; [exact Hk|].
        split; [lia|exact Hfail].
Qed.

Lemma is_valid_is_encoding sgn indet buf :
  is_valid sgn indet buf = Some true ->
  exists cs, Forall in_unicode_range cs /\ buf = encode cs.
Proof.
  unfold is_valid, is_valid_internal. intros H.
  destruct (is_valid_loop sgn (S (List.length buf - 0)) buf 0
              (List.length buf) 0 indet no_reason)
    as [[ok r]|] eqn:E; [|discriminate H].
  injection H as ->.
  exact (proj1 (is_valid_loop_outcome sgn buf 0 _ 0%nat [] indet no_reason
                  true r (Nat.le_0_l _) (Forall_nil _) eq_refl E)).
Qed.

(** Read by value.  [is_valid] accepts exactly the buffers that are the concatenated
    encodings of values up to 0x10FFFF (surrogates included): nothing else
    passes, and in particular no overlong form does. *)
Theorem is_valid_iff_encoding sgn indet buf :
  is_valid sgn indet buf = Some true
  <-> exists cs, Forall in_unicode_range cs /\ buf = encode cs.
Proof.
  split.
  - apply is_valid_is_encoding.
  - intros (cs & Hcs & ->). apply encode_is_valid. exact Hcs.
Qed.

(** Read by value.  When the scanner rejects a buffer, the reason it leaves describes the
    first failure: the bytes before some offset [k] are well-formed
    sequences, decoding at [k] fails, the explanation is the decoder's, and
    the offset reported is the decoder's offset plus [k], an offset inside
    the buffer and not before [k]. *)
Theorem is_valid_reports_first_failure sgn indet buf r0 r :
  is_valid_reason sgn indet buf r0 = Some (false, r) ->
  exists cs k,
    Forall in_unicode_range cs
    /\ firstn k buf = encode cs
    /\ (k < List.length buf)%nat
    /\ has_explanation r = true
    /\ Z.of_nat k <= position r < Z.of_nat (List.length buf)
    /\ forall cp,
         let d := next_codepoint sgn buf k (List.length buf) cp in
         has_explanation (reason d) = true
         /\ explanation r = explanation (reason d)
         /\ position r = Z.of_nat k + position (reason d).
Proof.
  unfold is_valid_reason, is_valid_internal. intros H.
  destruct (is_valid_loop_outcome sgn buf 0 _ 0%nat [] indet r0 false r
              (Nat.le_0_l _) (Forall_nil _) eq_refl H)
    as (cs & k & Hcs & Hk & Hkb & Hfail).
  exists cs, k. split; [exact Hcs|]. split; [exact Hk|].
  split; [lia|].
  destruct (Hfail indet) as [Hx ->].
  pose proof (reason_position_bounds sgn buf k (List.length buf) indet
                ltac:(lia)) as Hb.
  split; [exact Hx|]. split; [cbn [position]; lia|].
  intros cp. destruct (Hfail cp) as [Hx' Hr].
  split; [exact Hx'|]. injection Hr as He Hp.
  split; [exact He|]. cbn [position]. lia.
Qed.

(** Read by value.  When the scanner accepts a non-empty buffer it leaves the empty reason
    (offset 0); on the empty buffer it does not write the reason at all,
    and the caller finds in it what was there before the call. *)
Theorem is_valid_reason_after_success sgn indet buf r0 r :
  is_valid_reason sgn indet buf r0 = Some (true, r) ->
  r = match buf with [] => r0 | _ :: _ => no_reason end.
Proof.
  unfold is_valid_reason, is_valid_internal. intros H.
  pose proof (proj2 (is_valid_loop_outcome sgn buf 0 _ 0%nat [] indet r0
                       true r (Nat.le_0_l _) (Forall_nil _) eq_refl H))
    as Hr.
  destruct buf; exact Hr.
Qed.

Lemma encode_codepoint_bytes c :
  in_unicode_range c ->
  Forall (fun b => ~ never_in_valid (byte_val b)) (encode_codepoint c).
Proof.
  unfold in_unicode_range, never_in_valid. intros Hc.
  rewrite encode_codepoint_arith by lia.
  repeat split_on_ltb; repeat constructor; rewrite byte_val_of_Z; arith.
Qed.

(** Read by value.  A buffer that [is_valid] accepts contains none of the octets 0xC0,
    0xC1, 0xF5..0xFF, at any position. *)
Theorem valid_buffer_avoids_some_octets sgn indet buf :
  is_valid sgn indet buf = Some true ->
  Forall (fun b => ~ never_in_valid (byte_val b)) buf.
Proof.
  intros H. apply is_valid_is_encoding in H. destruct H as (cs & Hcs & ->).
  induction Hcs as [|c cs Hc _ IH]; [constructor|].
  rewrite encode_cons. apply Forall_app. split; [|exact IH].
  apply encode_codepoint_bytes. exact Hc.
Qed.

(** *** Scanning a concatenation *)

Lemma is_valid_loop_relocates sgn pre buf begin begin' end_ fuel :
  forall cbegin cp0 cp0' r0 r0',
    option_map fst
      (is_valid_loop sgn fuel (pre ++ buf) begin (List.length pre + end_)
                     (List.length pre + cbegin) cp0 r0)
    = option_map fst
        (is_valid_loop sgn fuel buf begin' end_ cbegin cp0' r0').
Proof.
  induction fuel as [|fuel IH]; intros cbegin cp0 cp0' r0 r0'; [reflexivity|].
  cbn [is_valid_loop]. rewrite eqb_add_l, next_codepoint_shift.
  destruct (Nat.eqb_spec cbegin end_) as [E|E]; cbn [negb]; [reflexivity|].
  rewrite (next_codepoint_cp0 sgn buf cbegin end_ cp0 cp0') by exact E.
  cbn [relocate reason new_position codepoint].
  destruct (has_explanation _); [reflexivity|]. apply IH.
Qed.

Lemma is_valid_loop_skips_encoded sgn cs :
  Forall in_unicode_range cs ->
  forall pre post fuel begin cp0 r0,
    exists cp1 r1,
      is_valid_loop sgn (List.length cs + fuel) (pre ++ encode cs ++ post)
                    begin (List.length (pre ++ encode cs ++ post))
                    (List.length pre) cp0 r0
      = is_valid_loop sgn fuel (pre ++ encode cs ++ post)
                      begin (List.length (pre ++ encode cs ++ post))
                      (List.length (pre ++ encode cs)) cp1 r1.
Proof.
  induction 1 as [|c cs Hc _ IH]; intros pre post fuel begin cp0 r0.
  - exists cp0, r0. cbn [encode flat_map List.length Nat.add app].
    rewrite app_nil_r. reflexivity.
  - rewrite encode_cons. cbn [List.length Nat.add is_valid_loop].
    rewrite <- (app_assoc (encode_codepoint c)).
    rewrite next_codepoint_encode by exact Hc.
    pose proof (encode_codepoint_length c) as Hlen.
    replace (List.length pre =? _)%nat with false
      by (symmetry; apply Nat.eqb_neq; rewrite !length_app; lia).
    cbn [negb reason new_position codepoint has_explanation no_reason
         explanation].
    destruct (IH (pre ++ encode_codepoint c) post fuel begin c no_reason)
      as (cp1 & r1 & Heq).
    exists cp1, r1. rewrite <- !app_assoc in Heq. exact Heq.
Qed.

(** Read by value.  A valid prefix can be dropped: if [is_valid] accepts [a], it says of
    [a ++ b] what it says of [b].  In particular the concatenation of two
    accepted buffers is accepted. *)
Theorem is_valid_after_valid_prefix sgn indet a b :
  is_valid sgn indet a = Some true ->
  is_valid sgn indet (a ++ b) = is_valid sgn indet b
  /\ (is_valid sgn indet b = Some true ->
      is_valid sgn indet (a ++ b) = Some true).
Proof.
  intros Ha.
  assert (Heq : is_valid sgn indet (a ++ b) = is_valid sgn indet b).
  { apply is_valid_is_encoding in Ha. destruct Ha as (cs & Hcs & ->).
    unfold is_valid, is_valid_internal. rewrite !Nat.sub_0_r.
    destruct (is_valid_loop_skips_encoded sgn cs Hcs [] b
                (S (List.length b)) 0%nat indet no_reason)
      as (cp1 & r1 & Hskip).
    cbn [app] in Hskip. change (@List.length byte []) with 0%nat in Hskip.
    pose proof (is_valid_loop_relocates sgn (encode cs) b 0 0
                  (List.length b) (S (List.length b)) 0%nat cp1 indet
                  r1 no_reason) as Hrel.
    rewrite Nat.add_0_r, <- length_app, <- Hskip in Hrel.
    rewrite <- Hrel.
    destruct (is_valid_loop sgn (List.length cs + S (List.length b))
                (encode cs ++ b) 0 (List.length (encode cs ++ b)) 0
                indet no_reason) as [res|] eqn:E.
    - assert (Hle : (List.length cs + S (List.length b)
                     <= S (List.length (encode cs ++ b)))%nat).
      { pose proof (encode_length cs). rewrite length_app. lia. }
      rewrite (is_valid_loop_fuel sgn (encode cs ++ b) 0 _ _ _ 0%nat indet
                 no_reason res Hle E).
      reflexivity.
    - exfalso.
      destruct (is_valid_loop_terminates sgn b 0 (List.length b)
                  (S (List.length b)) 0%nat indet no_reason
                  (Nat.le_0_l _) ltac:(lia)) as (ok & r & Hb).
      rewrite Hb in Hrel. discriminate Hrel. }
  split; [exact Heq|]. intros Hb. rewrite Heq. exact Hb.
Qed.

(** ** The cursor *)

Lemma advance_idle sgn buf it n :
  seen_end it = true -> Nat.iter n (advance sgn buf) it = it.
Proof.
  intros Hseen. induction n as [|n IH]; [reflexivity|].
  rewrite Nat.iter_succ, IH. unfold advance. rewrite Hseen. reflexivity.
Qed.

Lemma advance_step sgn buf it :
  seen_end it = false ->
  (it_position it < it_end it)%nat ->
  let it' := advance sgn buf it in
  (it_position it < it_position it' <= it_end it)%nat
  /\ it_start it' = it_start it
  /\ it_end it' = it_end it
  /\ seen_end it' = false
  /\ it_position it'
     = new_position (next_codepoint sgn buf (it_position it) (it_end it)
                                    (last_seen it))
  /\ last_seen it'
     = codepoint (next_codepoint sgn buf (it_position it) (it_end it)
                                 (last_seen it)).
Proof.
  intros Hseen Hlt. unfold advance. rewrite Hseen.
  replace (it_position it =? it_end it)%nat with false
    by (symmetry; apply Nat.eqb_neq; lia).
  cbn [it_position it_start it_end seen_end last_seen].
  pose proof (next_codepoint_progress sgn buf (it_position it) (it_end it)
                (last_seen it) Hlt).
  repeat split; try reflexivity; try lia; exact Hseen.
Qed.

(** Read by value.  A step of a cursor that has not seen the end and is not at the end
    decodes one codepoint: the position moves forward, at most to the end;
    the bounds of the range stay; the end is still not seen; and the
    codepoint stored is the decoder's (U+FFFD if the decoder failed). *)
Theorem advance_moves_forward sgn buf it :
  seen_end it = false ->
  (it_position it < it_end it)%nat ->
  let it' := advance sgn buf it in
  (it_position it < it_position it' <= it_end it)%nat
  /\ it_start it' = it_start it
  /\ it_end it' = it_end it
  /\ seen_end it' = false
  /\ it_position it'
     = new_position (next_codepoint sgn buf (it_position it) (it_end it)
                                    (last_seen it))
  /\ last_seen it'
     = codepoint (next_codepoint sgn buf (it_position it) (it_end it)
                                 (last_seen it)).
Proof. apply advance_step. Qed.

Lemma advance_exhausts sgn buf n :
  forall it,
    seen_end it = false ->
    (it_position it <= it_end it)%nat ->
    (it_end it - it_position it <= n)%nat ->
    Nat.iter (S n) (advance sgn buf) it
    = {| it_start := it_start it; it_position := it_end it;
         it_end := it_end it; last_seen := 0; it_reason := no_reason;
         seen_end := true |}.
Proof.
  induction n as [|n IH]; intros it Hseen Hle Hn.
  - change (Nat.iter 1 (advance sgn buf) it) with (advance sgn buf it).
    unfold advance. rewrite Hseen.
    replace (it_position it =? it_end it)%nat with true
      by (symmetry; apply Nat.eqb_eq; lia).
    replace (it_position it) with (it_end it) by lia. reflexivity.
  - rewrite Nat.iter_succ_r.
    destruct (Nat.eq_dec (it_position it) (it_end it)) as [E|E].
    + assert (Hadv : advance sgn buf it
                     = {| it_start := it_start it; it_position := it_end it;
                          it_end := it_end it; last_seen := 0;
                          it_reason := no_reason; seen_end := true |}).
      { unfold advance. rewrite Hseen, E, Nat.eqb_refl. reflexivity. }
      rewrite Hadv. apply advance_idle. reflexivity.
    + destruct (advance_step sgn buf it Hseen ltac:(lia))
        as (Hpos & Hstart & Hend & Hseen' & _).
      rewrite (IH (advance sgn buf it) Hseen') by lia.
      rewrite Hstart, Hend. reflexivity.
Qed.

(** Read by value.  A cursor whose position is within its range sees the end after at most
    one step per remaining byte plus one, whatever the bytes are; it then
    stands at the end with last codepoint 0 and the empty reason, and
    further steps leave it there. *)
Theorem cursor_is_exhausted_within_bound sgn buf it n :
  seen_end it = false ->
  (it_position it <= it_end it)%nat ->
  (it_end it - it_position it < n)%nat ->
  Nat.iter n (advance sgn buf) it
  = {| it_start := it_start it; it_position := it_end it;
       it_end := it_end it; last_seen := 0; it_reason := no_reason;
       seen_end := true |}.
Proof.
  intros Hseen Hle Hn. destruct n as [|n]; [lia|].
  apply advance_exhausts; [exact Hseen|exact Hle|lia].
Qed.

Lemma advance_over_encoded sgn c pre post it :
  in_unicode_range c ->
  seen_end it = false ->
  it_position it = List.length pre ->
  it_end it = List.length (pre ++ encode_codepoint c ++ post) ->
  let it' := advance sgn (pre ++ encode_codepoint c ++ post) it in
  last_seen it' = c
  /\ it_position it' = List.length (pre ++ encode_codepoint c)
  /\ it_start it' = it_start it
  /\ it_end it' = it_end it
  /\ seen_end it' = false.
Proof.
  intros Hc Hseen Hpos Hend.
  assert (Hlt : (it_position it < it_end it)%nat).
  { rewrite Hpos, Hend, !length_app.
    pose proof (encode_codepoint_length c). lia. }
  destruct (advance_step sgn (pre ++ encode_codepoint c ++ post) it
              Hseen Hlt) as (_ & Hstart & Hend' & Hseen' & Hp & Hl).
  cbv zeta.
  split; [rewrite Hl, Hpos, Hend, next_codepoint_encode by exact Hc;
          reflexivity|].
  split; [rewrite Hp, Hpos, Hend, next_codepoint_encode by exact Hc;
          reflexivity|].
  split; [exact Hstart|]. split; [exact Hend'|exact Hseen'].
Qed.

(** Read by value.  Stepping a cursor over the encoding of [cs] yields the values of [cs]
    in order: after [k + 1] steps the codepoint stored is the [k]-th
    value, and the end has not been seen. *)
Theorem cursor_yields_encoded_codepoints sgn cs :
  Forall in_unicode_range cs ->
  forall pre it k,
    seen_end it = false ->
    it_position it = List.length pre ->
    it_end it = List.length (pre ++ encode cs) ->
    (k < List.length cs)%nat ->
    let it' := Nat.iter (S k) (advance sgn (pre ++ encode cs)) it in
    last_seen it' = nth k cs 0 /\ seen_end it' = false.
Proof.
  induction 1 as [|c cs Hc _ IH]; intros pre it k Hseen Hpos Hend Hk;
    [simpl in Hk; lia|].
  rewrite encode_cons in *.
  destruct (advance_over_encoded sgn c pre (encode cs) it Hc Hseen Hpos Hend)
    as (Hl & Hp & _ & He & Hs).
  destruct k as [|k].
  - split; [exact Hl|exact Hs].
  - cbv zeta. rewrite Nat.iter_succ_r. cbn [nth].
    rewrite app_assoc in *.
    apply (IH (pre ++ encode_codepoint c)); try assumption.
    + rewrite He. exact Hend.
    + simpl in Hk. lia.
Qed.

(** ** The element scanner *)

(** Read by value.  On an empty range the [do ... while] body still runs once:
    [next_textual_element] returns [begin] itself, with the empty reason,
    and does not call the predicate.  It makes no progress there. *)
Theorem next_textual_element_on_empty_range sgn indet buf begin keep_going :
  next_textual_element sgn indet buf begin begin keep_going
  = Some {| elem_end := begin; elem_reason := no_reason; consulted := [] |}.
Proof.
  unfold next_textual_element. rewrite Nat.sub_diag.
  cbn [next_textual_element_loop].
  cbv beta zeta delta [next_codepoint]. rewrite Nat.eqb_refl.
  cbn [reason new_position codepoint has_explanation no_reason explanation
       negb].
  rewrite Nat.eqb_refl. reflexivity.
Qed.

Lemma has_explanation_false sgn buf start end_ cp0 :
  (start < end_)%nat ->
  has_explanation (reason (next_codepoint sgn buf start end_ cp0)) = false ->
  reason (next_codepoint sgn buf start end_ cp0) = no_reason
  /\ decodes buf start end_
             (new_position (next_codepoint sgn buf start end_ cp0))
             (codepoint (next_codepoint sgn buf start end_ cp0)).
Proof.
  intros Hlt Hx.
  destruct (next_codepoint_shape sgn buf start end_ cp0 _ Hlt eq_refl)
    as [(expl & pos & E & Hf) | [E Hd]].
  - pose proof (failure_has_explanation _ _ _ _ _ Hf) as Hx'.
    rewrite <- E in Hx'. congruence.
  - split; assumption.
Qed.

(** Read by value.  With a predicate that rejects every codepoint, the element is exactly
    the first decoding step, on any bytes: the position returned is the one
    [next_codepoint] returns at [begin], whether that step succeeds or
    fails and whatever follows it. *)
Theorem rejecting_predicate_gives_one_codepoint
    sgn indet buf begin end_ keep_going :
  (begin < end_)%nat ->
  (forall c, keep_going c = false) ->
  exists e,
    next_textual_element sgn indet buf begin end_ keep_going = Some e
    /\ elem_end e
       = new_position (next_codepoint sgn buf begin end_ indet).
Proof.
  intros Hlt Hkg. unfold next_textual_element.
  pose proof (next_codepoint_progress sgn buf begin end_ indet Hlt) as Hp.
  cbn [next_textual_element_loop].
  set (d := next_codepoint sgn buf begin end_ indet) in *.
  rewrite Nat.eqb_refl.
  destruct (has_explanation (reason d)).
  { eexists. split; reflexivity. }
  cbn [negb].
  destruct (Nat.eqb_spec (new_position d) end_) as [E|E]; cbn [negb].
  { eexists. split; reflexivity. }
  destruct (end_ - begin)%nat as [|fuel] eqn:Ef; [lia|].
  cbn [next_textual_element_loop].
  replace (new_position d =? begin)%nat with false
    by (symmetry; apply Nat.eqb_neq; lia).
  destruct (has_explanation _).
  { eexists. split; reflexivity. }
  cbn [negb]. rewrite Hkg. cbn [negb].
  eexists. split; reflexivity.
Qed.

Lemma next_textual_element_loop_failure sgn buf begin end_ keep_going fuel :
  forall cbegin cp0 calls e,
    (begin <= cbegin < end_)%nat ->
    next_textual_element_loop sgn fuel buf begin end_ keep_going
                              cbegin cp0 calls = Some e ->
    has_explanation (elem_reason e) = true ->
    exists k,
      (cbegin <= k < end_)%nat
      /\ elem_end e
         = (if (k =? begin)%nat
            then new_position (next_codepoint sgn buf k end_ cp0)
            else k)
      /\ forall cp,
           let d := next_codepoint sgn buf k end_ cp in
           has_explanation (reason d) = true
           /\ elem_reason e
              = {| explanation := explanation (reason d);
                   position := position (reason d)
                               + (Z.of_nat k - Z.of_nat begin) |}.
Proof.
  induction fuel as [|fuel IH]; intros cbegin cp0 calls e Hc H Hx;
    [discriminate H|].
  cbn [next_textual_element_loop] in H.
  pose proof (next_codepoint_progress sgn buf cbegin end_ cp0 ltac:(lia))
    as Hp.
  set (d := next_codepoint sgn buf cbegin end_ cp0) in *.
  destruct (has_explanation (reason d)) eqn:Hd.
  - exists cbegin. split; [lia|].
    destruct (cbegin =? begin)%nat; injection H as <-;
      (split; [reflexivity|]); intros cp;
      rewrite (next_codepoint_cp0 sgn buf cbegin end_ cp cp0) by lia;
      (split; [exact Hd|reflexivity]).
  - assert (Hcont : forall calls1,
               (if negb (new_position d =? end_)%nat
                then next_textual_element_loop sgn fuel buf begin end_
                       keep_going (new_position d) (codepoint d) calls1
                else Some {| elem_end := new_position d;
                             elem_reason := reason d;
                             consulted := calls1 |}) = Some e ->
               exists k,
                 (cbegin <= k < end_)%nat
                 /\ elem_end e
                    = (if (k =? begin)%nat
                       then new_position (next_codepoint sgn buf k end_ cp0)
                       else k)
                 /\ forall cp,
                      let d := next_codepoint sgn buf k end_ cp in
                      has_explanation (reason d) = true
                      /\ elem_reason e
                         = {| explanation := explanation (reason d);
                              position := position (reason d)
                                          + (Z.of_nat k - Z.of_nat begin) |}).
    { intros calls1 H1.
      destruct (Nat.eqb_spec (new_position d) end_) as [E|E];
        cbn [negb] in H1.
      - injection H1 as <-. cbn [elem_reason] in Hx. congruence.
      - destruct (IH (new_position d) (codepoint d) calls1 e ltac:(lia)
                    H1 Hx) as (k & Hk & Hend & Hfail).
        exists k. split; [lia|].
        replace (k =? begin)%nat with false in *
          by (symmetry; apply Nat.eqb_neq; lia).
        split; [exact Hend|exact Hfail]. }
    destruct (negb (cbegin =? begin)%nat).
    + destruct (keep_going (codepoint d)); cbn [negb] in H.
      * exact (Hcont _ H).
      * injection H as <-. cbn [elem_reason] in Hx. congruence.
    + exact (Hcont _ H).
Qed.

(** Read by value.  When [next_textual_element] leaves a non-empty reason, a decoding step
    at some offset [k] of the range failed and the reason is that failure,
    its offset counted from [begin] (so it lies within the range).  If [k]
    is [begin] the position returned is past the failing bytes; otherwise
    it is [k] itself, so the element returned is not empty although the
    reason is set. *)
Theorem element_reason_describes_a_failed_step
    sgn indet buf begin end_ keep_going e :
  (begin < end_)%nat ->
  next_textual_element sgn indet buf begin end_ keep_going = Some e ->
  has_explanation (elem_reason e) = true ->
  exists k,
    (begin <= k < end_)%nat
    /\ (k = begin ->
        elem_end e = new_position (next_codepoint sgn buf begin end_ indet))
    /\ (k <> begin -> elem_end e = k)
    /\ 0 <= position (elem_reason e) < Z.of_nat end_ - Z.of_nat begin
    /\ forall cp,
         let d := next_codepoint sgn buf k end_ cp in
         has_explanation (reason d) = true
         /\ elem_reason e
            = {| explanation := explanation (reason d);
                 position := position (reason d)
                             + (Z.of_nat k - Z.of_nat begin) |}.
Proof.
  intros Hlt H Hx. unfold next_textual_element in H.
  destruct (next_textual_element_loop_failure sgn buf begin end_ keep_going
              _ begin indet [] e ltac:(lia) H Hx)
    as (k & Hk & Hend & Hfail).
  exists k. split; [exact Hk|].
  split; [intros ->; rewrite Nat.eqb_refl in Hend; exact Hend|].
  split; [intros Hne; apply Nat.eqb_neq in Hne; rewrite Hne in Hend;
          exact Hend|].
  split; [|exact Hfail].
  destruct (Hfail indet) as [_ ->]. cbn [position].
  pose proof (reason_position_bounds sgn buf k end_ indet ltac:(lia)). lia.
Qed.

Lemma consumed_app (buf : list char) a b c :
  (a <= b <= c)%nat ->
  consumed buf a c = consumed buf a b ++ consumed buf b c.
Proof.
  intros H. unfold consumed.
  rewrite (firstn_consumed (skipn a buf) (b - a) (c - a)) by lia.
  unfold consumed. rewrite skipn_skipn.
  replace (b - a + a)%nat with b by lia.
  replace (c - a - (b - a))%nat with (c - b)%nat by lia.
  reflexivity.
Qed.

Lemma consumed_nil (buf : list char) a : consumed buf a a = [].
Proof. unfold consumed. rewrite Nat.sub_diag. reflexivity. Qed.

Lemma next_textual_element_loop_run sgn buf begin end_ keep_going fuel :
  (end_ <= List.length buf)%nat ->
  forall cbegin cp0 calls done,
    (begin <= cbegin < end_)%nat ->
    (end_ - cbegin < fuel)%nat ->
    consumed buf begin cbegin = encode done ->
    Forall in_unicode_range done ->
    Forall (fun c => keep_going c = true) (tl done) ->
    (cbegin = begin <-> done = []) ->
    (cbegin = begin ->
     has_explanation (reason (next_codepoint sgn buf cbegin end_ cp0))
     = false) ->
    exists e cs,
      next_textual_element_loop sgn fuel buf begin end_ keep_going
                                cbegin cp0 calls = Some e
      /\ cs <> []
      /\ (begin < elem_end e <= end_)%nat
      /\ consumed buf begin (elem_end e) = encode cs
      /\ Forall in_unicode_range cs
      /\ Forall (fun c => keep_going c = true) (tl cs)
      /\ element_cannot_extend sgn buf end_ keep_going (elem_end e).
Proof.
  intros Hbuf.
  induction fuel as [|fuel IH];
    intros cbegin cp0 calls done Hc Hfuel Hdone Hrange Hkeep Hfirst Hok;
    [lia|].
  cbn [next_textual_element_loop].
  pose proof (next_codepoint_progress sgn buf cbegin end_ cp0 ltac:(lia))
    as Hp.
  set (d := next_codepoint sgn buf cbegin end_ cp0) in *.
  destruct (has_explanation (reason d)) eqn:Hd.
  { (* the step fails: not the first one, and the element ends here *)
    destruct (Nat.eqb_spec cbegin begin) as [E|E];
      [specialize (Hok E); congruence|].
    exists {| elem_end := cbegin;
              elem_reason :=
                {| explanation := explanation (reason d);
                   position := position (reason d)
                               + (Z.of_nat cbegin - Z.of_nat begin) |};
              consulted := calls |}, done.
    split; [reflexivity|]. cbn [elem_end].
    split; [intros Hnil; apply Hfirst in Hnil; contradiction|].
    split; [lia|]. split; [exact Hdone|]. split; [exact Hrange|].
    split; [exact Hkeep|].
    right. split; [lia|]. intros cp. left.
    rewrite (next_codepoint_cp0 sgn buf cbegin end_ cp cp0) by lia.
    exact Hd. }
  destruct (has_explanation_false sgn buf cbegin end_ cp0 ltac:(lia) Hd)
    as [Hreason Hdec].
  fold d in Hreason, Hdec.
  destruct (decodes_is_encoding _ _ _ _ _ Hdec Hbuf) as [Hcp Henc].
  assert (Hdone' : consumed buf begin (new_position d)
                   = encode (done ++ [codepoint d])).
  { rewrite (consumed_app buf begin cbegin) by lia.
    rewrite Hdone, Henc, encode_app. cbn [encode flat_map].
    rewrite app_nil_r. reflexivity. }
  assert (Hrange' : Forall in_unicode_range (done ++ [codepoint d])).
  { apply Forall_app. split; [exact Hrange|].
    constructor; [exact Hcp|constructor]. }
  assert (Hcont : forall calls1,
             Forall (fun c => keep_going c = true)
                    (tl (done ++ [codepoint d])) ->
             exists e cs,
               (if negb (new_position d =? end_)%nat
                then next_textual_element_loop sgn fuel buf begin end_
                       keep_going (new_position d) (codepoint d) calls1
                else Some {| elem_end := new_position d;
                             elem_reason := reason d;
                             consulted := calls1 |}) = Some e
               /\ cs <> []
               /\ (begin < elem_end e <= end_)%nat
               /\ consumed buf begin (elem_end e) = encode cs
               /\ Forall in_unicode_range cs
               /\ Forall (fun c => keep_going c = true) (tl cs)
               /\ element_cannot_extend sgn buf end_ keep_going (elem_end e)).
  { intros calls1 Hkeep'.
    destruct (Nat.eqb_spec (new_position d) end_) as [E|E]; cbn [negb].
    - eexists _, (done ++ [codepoint d]). split; [reflexivity|].
      cbn [elem_end].
      split; [intros Hnil; apply app_eq_nil in Hnil;
              destruct Hnil as [_ Hnil]; discriminate Hnil|].
      split; [lia|]. split; [exact Hdone'|]. split; [exact Hrange'|].
      split; [exact Hkeep'|]. left. exact E.
    - apply (IH (new_position d) (codepoint d) calls1
                (done ++ [codepoint d])); try assumption; try lia.
      split; [lia|].
      intros Hnil. apply app_eq_nil in Hnil.
      destruct Hnil as [_ Hnil]. discriminate Hnil. }
  destruct (Nat.eqb_spec cbegin begin) as [E|E]; cbn [negb].
  - apply Hcont.
    replace done with (@nil Z) by (symmetry; apply Hfirst; exact E).
    constructor.
  - destruct (keep_going (codepoint d)) eqn:Hkg; cbn [negb].
    + apply Hcont.
      destruct done as [|c0 done]; [exfalso; apply E, Hfirst; reflexivity|].
      cbn [tl app] in *. apply Forall_app. split; [exact Hkeep|].
      constructor; [exact Hkg|constructor].
    + eexists _, done. split; [reflexivity|]. cbn [elem_end].
      split; [intros Hnil; apply Hfirst in Hnil; contradiction|].
      split; [lia|]. split; [exact Hdone|]. split; [exact Hrange|].
      split; [exact Hkeep|].
      right. split; [lia|]. intros cp. right.
      rewrite (next_codepoint_cp0 sgn buf cbegin end_ cp cp0) by lia.
      exact Hkg.
Qed.

(** Read by value.  When the first decoding step succeeds, the element returned is the
    first codepoint followed by the longest run of well-formed codepoints
    that [keep_going] accepts: its bytes are the encoding of a non-empty
    list whose members after the first all satisfy the predicate, and it
    stops only at the end of the range, before a sequence that fails to
    decode, or before a codepoint that the predicate rejects. *)
Theorem element_is_first_codepoint_and_accepted_run
    sgn indet buf begin end_ keep_going :
  (begin < end_ <= List.length buf)%nat ->
  has_explanation (reason (next_codepoint sgn buf begin end_ indet)) = false ->
  exists e c cs,
    next_textual_element sgn indet buf begin end_ keep_going = Some e
    /\ (begin < elem_end e <= end_)%nat
    /\ consumed buf begin (elem_end e) = encode (c :: cs)
    /\ Forall in_unicode_range (c :: cs)
    /\ Forall (fun x => keep_going x = true) cs
    /\ element_cannot_extend sgn buf end_ keep_going (elem_end e).
Proof.
  intros [Hlt Hbuf] Hok. unfold next_textual_element.
  destruct (next_textual_element_loop_run sgn buf begin end_ keep_going
              (S (end_ - begin)) Hbuf begin indet [] []
              ltac:(lia) ltac:(lia) (consumed_nil buf begin)
              (Forall_nil _) (Forall_nil _) ltac:(tauto) (fun _ => Hok))
    as (e & cs & He & Hne & Hend & Hcons & Hrange & Hkeep & Hstop).
  destruct cs as [|c cs]; [contradiction|].
  exists e, c, cs. repeat split; try assumption; lia.
Qed.

(** One execution of the loop body over the encoding of [c] placed after
    [pre], when the scan does not stop at [c]. *)
Lemma next_textual_element_loop_step sgn c pre post begin keep_going
    fuel cp0 calls :
  in_unicode_range c ->
  (List.length pre <> begin -> keep_going c = true) ->
  next_textual_element_loop sgn (S fuel) (pre ++ encode_codepoint c ++ post)
    begin (List.length (pre ++ encode_codepoint c ++ post)) keep_going
    (List.length pre) cp0 calls
  = let calls1 :=
      if (List.length pre =? begin)%nat then calls
      else calls ++ [(List.length pre, c)] in
    if negb (List.length (pre ++ encode_codepoint c)
             =? List.length (pre ++ encode_codepoint c ++ post))%nat
    then next_textual_element_loop sgn fuel
           (pre ++ encode_codepoint c ++ post) begin
           (List.length (pre ++ encode_codepoint c ++ post)) keep_going
           (List.length (pre ++ encode_codepoint c)) c calls1
    else Some {| elem_end := List.length (pre ++ encode_codepoint c);
                 elem_reason := no_reason; consulted := calls1 |}.
Proof.
  intros Hc Hkeep. cbn [next_textual_element_loop].
  rewrite next_codepoint_encode by exact Hc.
  cbn [reason new_position codepoint has_explanation no_reason explanation].
  destruct (Nat.eqb_spec (List.length pre) begin) as [E|E]; cbn [negb].
  - reflexivity.
  - rewrite (Hkeep E). reflexivity.
Qed.

(** The execution of the loop body that stops before [c]. *)
Lemma next_textual_element_loop_stop sgn c pre post begin keep_going
    fuel cp0 calls :
  in_unicode_range c ->
  List.length pre <> begin ->
  keep_going c = false ->
  next_textual_element_loop sgn (S fuel) (pre ++ encode_codepoint c ++ post)
    begin (List.length (pre ++ encode_codepoint c ++ post)) keep_going
    (List.length pre) cp0 calls
  = Some {| elem_end := List.length pre; elem_reason := no_reason;
            consulted := calls ++ [(List.length pre, c)] |}.
Proof.
  intros Hc Hne Hkeep. cbn [next_textual_element_loop].
  rewrite next_codepoint_encode by exact Hc.
  cbn [reason new_position codepoint has_explanation no_reason explanation].
  replace (List.length pre =? begin)%nat with false
    by (symmetry; apply Nat.eqb_neq; exact Hne).
  cbn [negb]. rewrite Hkeep. reflexivity.
Qed.

Lemma next_textual_element_loop_encoded sgn begin keep_going rest run :
  Forall in_unicode_range run ->
  Forall (fun c => keep_going c = true) run ->
  Forall in_unicode_range rest ->
  match rest with [] => True | r :: _ => keep_going r = false end ->
  forall c pre fuel cp0 calls,
    in_unicode_range c ->
    (begin <= List.length pre)%nat ->
    (List.length pre <> begin -> keep_going c = true) ->
    (List.length run + 2 <= fuel)%nat ->
    exists calls',
      next_textual_element_loop sgn fuel
        (pre ++ encode (c :: run ++ rest)) begin
        (List.length (pre ++ encode (c :: run ++ rest))) keep_going
        (List.length pre) cp0 calls
      = Some {| elem_end := List.length (pre ++ encode (c :: run));
                elem_reason := no_reason;
                consulted := calls ++ calls' |}
      /\ map snd calls'
         = (if (List.length pre =? begin)%nat then [] else [c])
           ++ run ++ firstn 1 rest.
Proof.
  intros Hrun.
  induction Hrun as [|r run Hr Hrun IH];
    intros Hkrun Hrest Hstop c pre fuel cp0 calls Hc Hpre Hkc Hfuel;
    (destruct fuel as [|fuel]; [lia|]);
    rewrite !encode_cons;
    rewrite next_textual_element_loop_step by assumption;
    pose proof (encode_codepoint_length c) as Hlen; cbv zeta.
  - (* no accepted codepoint follows [c] *)
    cbn [app]. destruct rest as [|r rest].
    + cbn [encode flat_map firstn]. rewrite !app_nil_r, Nat.eqb_refl.
      cbn [negb].
      destruct (List.length pre =? begin)%nat.
      * exists []. rewrite app_nil_r. split; reflexivity.
      * exists [(List.length pre, c)]. split; reflexivity.
    + pose proof (encode_codepoint_length r) as Hlenr.
      replace (_ =? _)%nat with false
        by (symmetry; apply Nat.eqb_neq; rewrite encode_cons, !length_app;
            lia).
      cbn [negb]. destruct fuel as [|fuel]; [simpl in Hfuel; lia|].
      rewrite encode_cons, (app_assoc pre).
      rewrite next_textual_element_loop_stop;
        [|inversion Hrest; assumption|rewrite length_app; lia|exact Hstop].
      cbn [encode flat_map firstn]. rewrite !app_nil_r.
      destruct (List.length pre =? begin)%nat.
      * exists [(List.length (pre ++ encode_codepoint c), r)].
        split; reflexivity.
      * exists [(List.length pre, c);
                (List.length (pre ++ encode_codepoint c), r)].
        rewrite <- app_assoc. split; reflexivity.
  - (* [r] follows [c] and is accepted *)
    pose proof (encode_codepoint_length r) as Hlenr.
    inversion Hkrun as [|? ? Hkr Hkrun']; subst.
    cbn [app]. rewrite encode_cons.
    replace (_ =? _)%nat with false
      by (symmetry; apply Nat.eqb_neq; rewrite !length_app; lia).
    cbn [negb].
    rewrite (app_assoc pre (encode_codepoint c)).
    rewrite <- (encode_cons r (run ++ rest)).
    destruct (IH Hkrun' Hrest Hstop r (pre ++ encode_codepoint c) fuel c
                (if (List.length pre =? begin)%nat then calls
                 else calls ++ [(List.length pre, c)])
                Hr ltac:(rewrite length_app; lia) (fun _ => Hkr)
                ltac:(simpl in Hfuel; lia))
      as (calls' & Heq & Hmap).
    rewrite Heq.
    replace (List.length (pre ++ encode_codepoint c) =? begin)%nat
      with false in Hmap
      by (symmetry; apply Nat.eqb_neq; rewrite length_app; lia).
    rewrite <- (app_assoc pre), <- (encode_cons r run).
    destruct (List.length pre =? begin)%nat.
    + exists calls'. split; [reflexivity|exact Hmap].
    + exists ((List.length pre, c) :: calls').
      rewrite <- app_assoc. split; [reflexivity|].
      cbn [map snd app]. rewrite Hmap. reflexivity.
Qed.

(** Read by value.  On the encoding of [c :: run ++ rest], where [keep_going] accepts every
    member of [run] and rejects the head of [rest] (if there is one), the
    element is the encoding of [c :: run] exactly, with the empty reason,
    and the predicate was asked about the members of [run] and the head of
    [rest], in that order, never about [c].  An always-true predicate thus
    returns the whole buffer, an always-false one a single codepoint. *)
Theorem element_of_encoded_buffer sgn indet keep_going c run rest :
  Forall in_unicode_range (c :: run ++ rest) ->
  Forall (fun x => keep_going x = true) run ->
  match rest with [] => True | r :: _ => keep_going r = false end ->
  exists e,
    next_textual_element sgn indet (encode (c :: run ++ rest)) 0
      (List.length (encode (c :: run ++ rest))) keep_going = Some e
    /\ elem_end e = List.length (encode (c :: run))
    /\ elem_reason e = no_reason
    /\ map snd (consulted e) = run ++ firstn 1 rest.
Proof.
  intros Hall Hkeep Hstop.
  inversion Hall as [|? ? Hc Hrr]; subst.
  apply Forall_app in Hrr. destruct Hrr as [Hrun Hrest].
  unfold next_textual_element.
  assert (Hfuel : (List.length run + 2
                   <= S (List.length (encode (c :: run ++ rest)) - 0))%nat).
  { pose proof (encode_length (c :: run ++ rest)) as Hl.
    cbn [List.length] in Hl. rewrite length_app in Hl. lia. }
  destruct (next_textual_element_loop_encoded sgn 0 keep_going rest run
              Hrun Hkeep Hrest Hstop c [] _ indet [] Hc (Nat.le_refl _)
              (fun H => False_ind _ (H eq_refl)) Hfuel)
    as (calls' & Heq & Hmap).
  cbn [app List.length] in Heq, Hmap.
  eexists. split; [exact Heq|]. cbn [elem_end elem_reason consulted].
  split; [reflexivity|]. split; [reflexivity|exact Hmap].
Qed.

(** ** Which failure, from the bytes *)

Ltac decide_cmp :=
  match goal with
  | |- context [?a <? ?b] => destruct (Z.ltb_spec a b); try (exfalso; arith)
  | |- context [?a <=? ?b] => destruct (Z.leb_spec a b); try (exfalso; arith)
  end; cbn [andb].

(** [next_codepoint] reports "saw end of string" exactly when the sequence
    at [start] is truncated by the end of the range. *)
Theorem end_of_string_iff_truncated sgn buf start end_ cp0 :
  (start < end_)%nat ->
  explanation (reason (next_codepoint sgn buf start end_ cp0))
  = END_OF_STRING
  <-> truncated sgn buf start end_.
Proof.
  intros Hlt. split.
  2:{ intros Ht. rewrite (truncated_fails _ _ _ _ _ Ht). reflexivity. }
  unfold truncated, continuation_bytes_needed.
  generalize (eq_refl (next_codepoint sgn buf start end_ cp0)).
  generalize (next_codepoint sgn buf start end_ cp0) at 2 3 as d.
  intros d. rewrite is_twobyte_start_val, is_threebyte_start_val,
    is_fourbyte_start_val.
  open_decoder. repeat step_decoder; intros <- E; try discriminate E;
    (split; [lia|]); (split; [repeat decide_cmp; lia|]);
    intros k Hk; apply is_continuation_iff; revert k Hk; between start.
Qed.

(** For a lead byte followed by all the continuation bytes it announces,
    the checks on the decoded value amount to checks on the first two
    bytes.  A two-byte sequence is overlong exactly when its lead is 0xC0
    or 0xC1; a three-byte one when its lead is 0xE0 and its second byte is
    below 0xA0; a four-byte one when its lead is 0xF0 and its second byte
    is below 0x90; and a four-byte sequence is beyond U+10FFFF exactly
    when its lead is above 0xF4, or is 0xF4 with a second byte of 0x90 or
    more.  Every other such sequence decodes. *)
Theorem value_checks_as_byte_patterns sgn buf start end_ cp0 :
  let d := next_codepoint sgn buf start end_ cp0 in
  let v0 := bv buf start in
  let v1 := bv buf (S start) in
  (0xC0 <= v0 < 0xE0 -> followed_by_continuations buf start end_ 1 ->
   (explanation (reason d) = OVERLONG <-> v0 < 0xC2)
   /\ (has_explanation (reason d) = false <-> 0xC2 <= v0))
  /\ (0xE0 <= v0 < 0xF0 -> followed_by_continuations buf start end_ 2 ->
      (explanation (reason d) = OVERLONG <-> v0 = 0xE0 /\ v1 < 0xA0)
      /\ (has_explanation (reason d) = false
          <-> ~ (v0 = 0xE0 /\ v1 < 0xA0)))
  /\ (0xF0 <= v0 < 0xF8 -> followed_by_continuations buf start end_ 3 ->
      (explanation (reason d) = OVERLONG <-> v0 = 0xF0 /\ v1 < 0x90)
      /\ (explanation (reason d) = BEYOND_UNICODE
          <-> 0xF4 < v0 \/ (v0 = 0xF4 /\ 0x90 <= v1))
      /\ (has_explanation (reason d) = false
          <-> ~ (v0 = 0xF0 /\ v1 < 0x90)
              /\ ~ (0xF4 < v0 \/ (v0 = 0xF4 /\ 0x90 <= v1)))).
Proof.
  cbv zeta. unfold followed_by_continuations, cont_val, bv.
  generalize (eq_refl (next_codepoint sgn buf start end_ cp0)).
  generalize (next_codepoint sgn buf start end_ cp0) at 2 3 4 5 6 7 8 9 as d.
  intros d Hd.
  split; [|split]; intros Hlead [Hend Hcont];
    pose proof (Hcont (S start)) as H1;
    pose proof (Hcont (S (S start))) as H2;
    pose proof (Hcont (S (S (S start)))) as H3; clear Hcont;
    revert Hd; open_decoder; repeat step_decoder; intros <-;
    cbn [reason explanation has_explanation no_reason];
    repeat split; intros; try discriminate; try reflexivity;
    try (exfalso; arith); try arith.
Qed.

(** ** The further properties at particular inputs *)

(** A lone continuation byte. *)
Lemma invalid_initial_witness :
  (0 < 1)%nat
  /\ (explanation (reason (next_codepoint true [x80] 0 1 0)) = INVALID_INITIAL
      <-> (0x80 <= bv [x80] 0 < 0xC0 \/ 0xF8 <= bv [x80] 0))
  /\ (explanation (reason (next_codepoint true [x80] 0 1 0)) = INVALID_INITIAL
      -> position (reason (next_codepoint true [x80] 0 1 0)) = 0
         /\ codepoint (next_codepoint true [x80] 0 1 0) = REPLACEMENT).
Proof.
  assert (H : (0 < 1)%nat) by lia.
  exact (conj H (invalid_initial_iff_lead_byte true [x80] 0 1 0 H)).
Defined.

(** Two buffers that differ only after the range. *)
Lemma reads_only_its_range_witness :
  (0 <= 1)%nat
  /\ (forall k, (0 <= k < 1)%nat ->
                deref [x41; xc3] k = deref [x41; x42] k)
  /\ next_codepoint true [x41; xc3] 0 1 0
     = next_codepoint true [x41; x42] 0 1 0.
Proof.
  assert (H1 : (0 <= 1)%nat) by lia.
  assert (H2 : forall k, (0 <= k < 1)%nat ->
                         deref [x41; xc3] k = deref [x41; x42] k).
  { intros k Hk. assert (k = 0%nat) as -> by lia. reflexivity. }
  exact (conj H1 (conj H2
    (next_codepoint_reads_only_its_range true _ _ 0 1 0 H1 H2))).
Defined.

(** "A" followed by an overlong NUL: rejected at offset 2. *)
Lemma reports_first_failure_witness :
  is_valid_reason true 0 [x41; xc0; x80] no_reason
  = Some (false, {| explanation := OVERLONG; position := 2 |})
  /\ exists cs k,
       Forall in_unicode_range cs
       /\ firstn k [x41; xc0; x80] = encode cs
       /\ (k < List.length [x41; xc0; x80])%nat
       /\ has_explanation {| explanation := OVERLONG; position := 2 |} = true
       /\ Z.of_nat k <= position {| explanation := OVERLONG; position := 2 |}
          < Z.of_nat (List.length [x41; xc0; x80])
       /\ forall cp,
            let d := next_codepoint true [x41; xc0; x80] k
                       (List.length [x41; xc0; x80]) cp in
            has_explanation (reason d) = true
            /\ explanation {| explanation := OVERLONG; position := 2 |}
               = explanation (reason d)
            /\ position {| explanation := OVERLONG; position := 2 |}
               = Z.of_nat k + position (reason d).
Proof.
  assert (H : is_valid_reason true 0 [x41; xc0; x80] no_reason
              = Some (false, {| explanation := OVERLONG; position := 2 |}))
    by reflexivity.
  exact (conj H (is_valid_reports_first_failure true 0 _ _ _ H)).
Defined.

(** A one-byte buffer, scanned with a reason that was set before. *)
Lemma reason_after_success_witness :
  is_valid_reason true 0 [x41] {| explanation := OVERLONG; position := 7 |}
  = Some (true, no_reason)
  /\ no_reason = match [x41] with [] => {| explanation := OVERLONG;
                                           position := 7 |}
                 | _ :: _ => no_reason end.
Proof.
  assert (H : is_valid_reason true 0 [x41]
                {| explanation := OVERLONG; position := 7 |}
              = Some (true, no_reason)) by reflexivity.
  exact (conj H (is_valid_reason_after_success true 0 _ _ _ H)).
Defined.

(** "A" and the euro sign. *)
Lemma avoids_some_octets_witness :
  is_valid true 0 [x41; xe2; x82; xac] = Some true
  /\ Forall (fun b => ~ never_in_valid (byte_val b)) [x41; xe2; x82; xac].
Proof.
  assert (H : is_valid true 0 [x41; xe2; x82; xac] = Some true)
    by reflexivity.
  exact (conj H (valid_buffer_avoids_some_octets true 0 _ H)).
Defined.

(** "A" before a truncated sequence, and before the euro sign. *)
Lemma after_valid_prefix_witness :
  is_valid true 0 [x41] = Some true
  /\ is_valid true 0 [xe2; x82; xac] = Some true
  /\ is_valid true 0 ([x41] ++ [xe2; x82]) = is_valid true 0 [xe2; x82]
  /\ is_valid true 0 ([x41] ++ [xe2; x82; xac]) = Some true.
Proof.
  assert (H1 : is_valid true 0 [x41] = Some true) by reflexivity.
  assert (H2 : is_valid true 0 [xe2; x82; xac] = Some true) by reflexivity.
  exact (conj H1 (conj H2 (conj
    (proj1 (is_valid_after_valid_prefix true 0 [x41] [xe2; x82] H1))
    (proj2 (is_valid_after_valid_prefix true 0 [x41] [xe2; x82; xac] H1)
           H2)))).
Defined.

(** A cursor at the start of the euro sign. *)
Lemma advance_moves_forward_witness :
  seen_end (mk_iterator 0 0 3 0 no_reason false) = false
  /\ (it_position (mk_iterator 0 0 3 0 no_reason false)
      < it_end (mk_iterator 0 0 3 0 no_reason false))%nat
  /\ it_position (advance true [xe2; x82; xac]
                    (mk_iterator 0 0 3 0 no_reason false))
     = new_position (next_codepoint true [xe2; x82; xac] 0 3 0)
  /\ last_seen (advance true [xe2; x82; xac]
                  (mk_iterator 0 0 3 0 no_reason false))
     = codepoint (next_codepoint true [xe2; x82; xac] 0 3 0).
Proof.
  assert (H1 : seen_end (mk_iterator 0 0 3 0 no_reason false) = false)
    by reflexivity.
  assert (H2 : (it_position (mk_iterator 0 0 3 0 no_reason false)
                < it_end (mk_iterator 0 0 3 0 no_reason false))%nat)
    by (simpl; lia).
  exact (conj H1 (conj H2
    (proj2 (proj2 (proj2 (proj2
       (advance_moves_forward true [xe2; x82; xac]
          (mk_iterator 0 0 3 0 no_reason false) H1 H2))))))).
Defined.

(** A cursor on two bytes, the first an invalid lead: three steps. *)
Lemma cursor_is_exhausted_witness :
  seen_end (mk_iterator 0 0 2 0 no_reason false) = false
  /\ (it_position (mk_iterator 0 0 2 0 no_reason false)
      <= it_end (mk_iterator 0 0 2 0 no_reason false))%nat
  /\ (it_end (mk_iterator 0 0 2 0 no_reason false)
      - it_position (mk_iterator 0 0 2 0 no_reason false) < 3)%nat
  /\ Nat.iter 3 (advance true [xff; x41])
       (mk_iterator 0 0 2 0 no_reason false)
     = mk_iterator 0 2 2 0 no_reason true.
Proof.
  assert (H1 : seen_end (mk_iterator 0 0 2 0 no_reason false) = false)
    by reflexivity.
  assert (H2 : (it_position (mk_iterator 0 0 2 0 no_reason false)
                <= it_end (mk_iterator 0 0 2 0 no_reason false))%nat)
    by (simpl; lia).
  assert (H3 : (it_end (mk_iterator 0 0 2 0 no_reason false)
                - it_position (mk_iterator 0 0 2 0 no_reason false)
                < 3)%nat) by (simpl; lia).
  exact (conj H1 (conj H2 (conj H3
    (cursor_is_exhausted_within_bound true [xff; x41]
       (mk_iterator 0 0 2 0 no_reason false) 3 H1 H2 H3)))).
Defined.

(** A cursor over "A" and the euro sign: the second step yields U+20AC. *)
Lemma cursor_yields_witness :
  Forall in_unicode_range [0x41; 0x20AC]
  /\ seen_end (mk_iterator 0 0 4 0 no_reason false) = false
  /\ it_position (mk_iterator 0 0 4 0 no_reason false) = List.length (@nil byte)
  /\ it_end (mk_iterator 0 0 4 0 no_reason false)
     = List.length ([] ++ encode [0x41; 0x20AC])
  /\ (1 < List.length [0x41; 0x20AC])%nat
  /\ last_seen (Nat.iter 2 (advance true ([] ++ encode [0x41; 0x20AC]))
                  (mk_iterator 0 0 4 0 no_reason false))
     = nth 1 [0x41; 0x20AC] 0
  /\ seen_end (Nat.iter 2 (advance true ([] ++ encode [0x41; 0x20AC]))
                 (mk_iterator 0 0 4 0 no_reason false))
     = false.
Proof.
  assert (H0 : Forall in_unicode_range [0x41; 0x20AC])
    by (repeat constructor; unfold in_unicode_range; lia).
  assert (H1 : seen_end (mk_iterator 0 0 4 0 no_reason false) = false)
    by reflexivity.
  assert (H2 : it_position (mk_iterator 0 0 4 0 no_reason false)
               = List.length (@nil byte)) by reflexivity.
  assert (H3 : it_end (mk_iterator 0 0 4 0 no_reason false)
               = List.length ([] ++ encode [0x41; 0x20AC])) by reflexivity.
  assert (H4 : (1 < List.length [0x41; 0x20AC])%nat) by (simpl; lia).
  exact (conj H0 (conj H1 (conj H2 (conj H3 (conj H4
    (cursor_yields_encoded_codepoints true [0x41; 0x20AC] H0 []
       (mk_iterator 0 0 4 0 no_reason false) 1 H1 H2 H3 H4)))))).
Defined.

(** "AB" with a predicate that rejects everything. *)
Lemma rejecting_predicate_witness :
  (0 < 2)%nat
  /\ (forall c : Z, (fun _ : Z => false) c = false)
  /\ exists e,
       next_textual_element true 0 [x41; x42] 0 2 (fun _ => false) = Some e
       /\ elem_end e = new_position (next_codepoint true [x41; x42] 0 2 0).
Proof.
  assert (H1 : (0 < 2)%nat) by lia.
  assert (H2 : forall c : Z, (fun _ : Z => false) c = false)
    by (intros c; reflexivity).
  exact (conj H1 (conj H2
    (rejecting_predicate_gives_one_codepoint true 0 [x41; x42] 0 2
       (fun _ => false) H1 H2))).
Defined.

(** "A" followed by an invalid lead byte: the element is "A", and the
    reason is set. *)
Lemma element_reason_witness :
  (0 < 2)%nat
  /\ next_textual_element true 0 [x41; xff] 0 2 (fun _ => true)
     = Some {| elem_end := 1;
               elem_reason := {| explanation := INVALID_INITIAL;
                                 position := 1 |};
               consulted := [] |}
  /\ has_explanation {| explanation := INVALID_INITIAL; position := 1 |}
     = true
  /\ exists k,
       (0 <= k < 2)%nat
       /\ (k = 0%nat ->
           1%nat = new_position (next_codepoint true [x41; xff] 0 2 0))
       /\ (k <> 0%nat -> 1%nat = k)
       /\ 0 <= 1 < Z.of_nat 2 - Z.of_nat 0
       /\ forall cp,
            let d := next_codepoint true [x41; xff] k 2 cp in
            has_explanation (reason d) = true
            /\ {| explanation := INVALID_INITIAL; position := 1 |}
               = {| explanation := explanation (reason d);
                    position := position (reason d)
                                + (Z.of_nat k - Z.of_nat 0) |}.
Proof.
  assert (H1 : (0 < 2)%nat) by lia.
  assert (H2 : next_textual_element true 0 [x41; xff] 0 2 (fun _ => true)
               = Some {| elem_end := 1;
                         elem_reason := {| explanation := INVALID_INITIAL;
                                           position := 1 |};
                         consulted := [] |}) by reflexivity.
  assert (H3 : has_explanation
                 {| explanation := INVALID_INITIAL; position := 1 |} = true)
    by reflexivity.
  exact (conj H1 (conj H2 (conj H3
    (element_reason_describes_a_failed_step true 0 [x41; xff] 0 2
       (fun _ => true) _ H1 H2 H3)))).
Defined.

(** "ABC" with a predicate that accepts "B" only. *)
Lemma element_run_witness :
  (0 < 3 <= List.length [x41; x42; x43])%nat
  /\ has_explanation (reason (next_codepoint true [x41; x42; x43] 0 3 0))
     = false
  /\ exists e c cs,
       next_textual_element true 0 [x41; x42; x43] 0 3 (Z.eqb 0x42) = Some e
       /\ (0 < elem_end e <= 3)%nat
       /\ consumed [x41; x42; x43] 0 (elem_end e) = encode (c :: cs)
       /\ Forall in_unicode_range (c :: cs)
       /\ Forall (fun x => Z.eqb 0x42 x = true) cs
       /\ element_cannot_extend true [x41; x42; x43] 3 (Z.eqb 0x42)
                                (elem_end e).
Proof.
  assert (H1 : (0 < 3 <= List.length [x41; x42; x43])%nat) by (simpl; lia).
  assert (H2 : has_explanation
                 (reason (next_codepoint true [x41; x42; x43] 0 3 0))
               = false) by reflexivity.
  exact (conj H1 (conj H2
    (element_is_first_codepoint_and_accepted_run true 0 [x41; x42; x43] 0 3
       (Z.eqb 0x42) H1 H2))).
Defined.

(** "e", a combining acute accent, then "x": the element is the first
    two. *)
Lemma element_of_encoded_buffer_witness :
  Forall in_unicode_range (0x65 :: [0x301] ++ [0x78])
  /\ Forall (fun x => Z.eqb 0x301 x = true) [0x301]
  /\ Z.eqb 0x301 0x78 = false
  /\ exists e,
       next_textual_element true 0 (encode (0x65 :: [0x301] ++ [0x78])) 0
         (List.length (encode (0x65 :: [0x301] ++ [0x78]))) (Z.eqb 0x301)
       = Some e
       /\ elem_end e = List.length (encode (0x65 :: [0x301]))
       /\ elem_reason e = no_reason
       /\ map snd (consulted e) = [0x301] ++ firstn 1 [0x78].
Proof.
  assert (H1 : Forall in_unicode_range (0x65 :: [0x301] ++ [0x78]))
    by (repeat constructor; unfold in_unicode_range; lia).
  assert (H2 : Forall (fun x => Z.eqb 0x301 x = true) [0x301])
    by (repeat constructor).
  assert (H3 : Z.eqb 0x301 0x78 = false) by reflexivity.
  exact (conj H1 (conj H2 (conj H3
    (element_of_encoded_buffer true 0 (Z.eqb 0x301) 0x65 [0x301] [0x78]
       H1 H2 H3)))).
Defined.

(** A three-byte lead with one continuation byte, then the end. *)
Lemma end_of_string_witness :
  (0 < 2)%nat
  /\ truncated true [xe0; x80] 0 2
  /\ explanation (reason (next_codepoint true [xe0; x80] 0 2 0))
     = END_OF_STRING.
Proof.
  assert (H1 : (0 < 2)%nat) by lia.
  assert (H2 : truncated true [xe0; x80] 0 2).
  { split; [lia|]. split; [vm_compute; lia|].
    intros k Hk. assert (k = 1%nat) as -> by lia. reflexivity. }
  exact (conj H1 (conj H2
    (proj2 (end_of_string_iff_truncated true [xe0; x80] 0 2 0 H1) H2))).
Defined.

(** An overlong NUL, an overlong three-byte form and the first value beyond
    U+10FFFF. *)
Lemma value_checks_witness :
  (0xC0 <= bv [xc0; x80] 0 < 0xE0
   /\ followed_by_continuations [xc0; x80] 0 2 1
   /\ (explanation (reason (next_codepoint true [xc0; x80] 0 2 0)) = OVERLONG
       <-> bv [xc0; x80] 0 < 0xC2))
  /\ (0xE0 <= bv [xe0; x9f; x80] 0 < 0xF0
      /\ followed_by_continuations [xe0; x9f; x80] 0 3 2
      /\ (explanation (reason (next_codepoint true [xe0; x9f; x80] 0 3 0))
          = OVERLONG
          <-> bv [xe0; x9f; x80] 0 = 0xE0 /\ bv [xe0; x9f; x80] 1 < 0xA0))
  /\ (0xF0 <= bv [xf4; x90; x80; x80] 0 < 0xF8
      /\ followed_by_continuations [xf4; x90; x80; x80] 0 4 3
      /\ (explanation
            (reason (next_codepoint true [xf4; x90; x80; x80] 0 4 0))
          = BEYOND_UNICODE
          <-> 0xF4 < bv [xf4; x90; x80; x80] 0
              \/ (bv [xf4; x90; x80; x80] 0 = 0xF4
                  /\ 0x90 <= bv [xf4; x90; x80; x80] 1))).
Proof.
  assert (A1 : 0xC0 <= bv [xc0; x80] 0 < 0xE0) by (cbn; lia).
  assert (A2 : followed_by_continuations [xc0; x80] 0 2 1).
  { split; [lia|]. intros k Hk. assert (k = 1%nat) as -> by lia.
    unfold cont_val; cbn; lia. }
  assert (B1 : 0xE0 <= bv [xe0; x9f; x80] 0 < 0xF0) by (cbn; lia).
  assert (B2 : followed_by_continuations [xe0; x9f; x80] 0 3 2).
  { split; [lia|]. intros k Hk.
    assert (k = 1%nat \/ k = 2%nat) as [-> | ->] by lia; unfold cont_val; cbn; lia. }
  assert (C1 : 0xF0 <= bv [xf4; x90; x80; x80] 0 < 0xF8)
    by (cbn; lia).
  assert (C2 : followed_by_continuations [xf4; x90; x80; x80] 0 4 3).
  { split; [lia|]. intros k Hk.
    assert (k = 1%nat \/ k = 2%nat \/ k = 3%nat) as [-> | [-> | ->]] by lia;
      unfold cont_val; cbn; lia. }
  exact (conj
    (conj A1 (conj A2
       (proj1 (proj1 (value_checks_as_byte_patterns true [xc0; x80] 0 2 0)
                     A1 A2))))
    (conj
       (conj B1 (conj B2
          (proj1 (proj1 (proj2 (value_checks_as_byte_patterns
                                  true [xe0; x9f; x80] 0 3 0)) B1 B2))))
       (conj C1 (conj C2
          (proj1 (proj2 (proj2 (proj2 (value_checks_as_byte_patterns
                                         true [xf4; x90; x80; x80] 0 4 0))
                               C1 C2))))))).
Defined.

(** ** The unexpected byte *)

Lemma something_else_offender sgn buf start end_ cp0 :
  (start < end_)%nat ->
  explanation (reason (next_codepoint sgn buf start end_ cp0))
  = SOMETHING_ELSE ->
  exists k,
    (start < k < end_)%nat
    /\ (k - start <= continuation_bytes_needed sgn (deref buf start))%nat
    /\ ~ cont_val (bv buf k)
    /\ (forall j, (start < j < k)%nat -> cont_val (bv buf j))
    /\ new_position (next_codepoint sgn buf start end_ cp0) = k.
Proof.
  intros Hlt. unfold continuation_bytes_needed, cont_val, bv.
  generalize (eq_refl (next_codepoint sgn buf start end_ cp0)).
  generalize (next_codepoint sgn buf start end_ cp0) at 2 3 4 as d.
  intros d.
  rewrite is_twobyte_start_val, is_threebyte_start_val, is_fourbyte_start_val.
  open_decoder. repeat step_decoder; intros <- E; try discriminate E;
    cbn [new_position];
    match goal with
    | |- exists k, _ /\ _ /\ _ /\ _ /\ ?p = k => exists p
    end;
    (split; [lia|]); (split; [repeat decide_cmp; lia|]);
    (split; [arith|]); (split; [between start|reflexivity]).
Qed.

Lemma offender_gives_something_else sgn buf start end_ cp0 k :
  (start < k < end_)%nat ->
  (k - start <= continuation_bytes_needed sgn (deref buf start))%nat ->
  ~ cont_val (bv buf k) ->
  (forall j, (start < j < k)%nat -> cont_val (bv buf j)) ->
  next_codepoint sgn buf start end_ cp0 = fail SOMETHING_ELSE start k.
Proof.
  unfold continuation_bytes_needed, cont_val, bv.
  intros Hk Hn Hbad Hbetween.
  pose proof (Hbetween (S start)) as H1.
  pose proof (Hbetween (S (S start))) as H2. clear Hbetween.
  revert Hn.
  rewrite is_twobyte_start_val, is_threebyte_start_val, is_fourbyte_start_val.
  destruct (Z.leb_spec 0xC0 (byte_val (deref buf start)));
    destruct (Z.ltb_spec (byte_val (deref buf start)) 0xE0);
    destruct (Z.leb_spec 0xE0 (byte_val (deref buf start)));
    destruct (Z.ltb_spec (byte_val (deref buf start)) 0xF0);
    destruct (Z.leb_spec 0xF0 (byte_val (deref buf start)));
    destruct (Z.ltb_spec (byte_val (deref buf start)) 0xF8);
    cbn [andb]; intros Hn; try (exfalso; lia);
    (assert (k = S start \/ k = S (S start) \/ k = S (S (S start)))
       as [-> | [-> | ->]] by lia);
    try (exfalso; lia);
    open_decoder; repeat step_decoder; reflexivity.
Qed.

(** [next_codepoint] reports "saw something else" exactly when, among the
    continuation bytes the lead byte announces, one that lies within the
    range is not a continuation byte; the offset it then reports is that
    of the byte just before the first such byte. *)
Theorem something_else_iff_offending_byte sgn buf start end_ cp0 :
  (start < end_)%nat ->
  (explanation (reason (next_codepoint sgn buf start end_ cp0))
   = SOMETHING_ELSE
   <-> exists k,
         (start < k < end_)%nat
         /\ (k - start
             <= continuation_bytes_needed sgn (deref buf start))%nat
         /\ is_continuation sgn (deref buf k) = false
         /\ forall j, (start < j < k)%nat ->
                      is_continuation sgn (deref buf j) = true)
  /\ (forall k,
        (start < k < end_)%nat ->
        (k - start <= continuation_bytes_needed sgn (deref buf start))%nat ->
        is_continuation sgn (deref buf k) = false ->
        (forall j, (start < j < k)%nat ->
                   is_continuation sgn (deref buf j) = true) ->
        position (reason (next_codepoint sgn buf start end_ cp0))
        = Z.of_nat k - Z.of_nat start - 1).
Proof.
  intros Hlt. split; [split|].
  - intros E.
    destruct (something_else_offender sgn buf start end_ cp0 Hlt E)
      as (k & Hk & Hn & Hbad & Hbetween & _).
    exists k. split; [exact Hk|]. split; [exact Hn|].
    split; [apply is_continuation_false_iff; exact Hbad|].
    intros j Hj. apply is_continuation_iff, Hbetween. exact Hj.
  - intros (k & Hk & Hn & Hbad & Hbetween).
    rewrite (offender_gives_something_else sgn buf start end_ cp0 k Hk Hn).
    + reflexivity.
    + apply (is_continuation_false_iff sgn). exact Hbad.
    + intros j Hj. apply (is_continuation_iff sgn), Hbetween. exact Hj.
  - intros k Hk Hn Hbad Hbetween.
    rewrite (offender_gives_something_else sgn buf start end_ cp0 k Hk Hn).
    + reflexivity.
    + apply (is_continuation_false_iff sgn). exact Hbad.
    + intros j Hj. apply (is_continuation_iff sgn), Hbetween. exact Hj.
Qed.

(** A two-byte lead followed by "A". *)
Lemma something_else_witness :
  (0 < 2)%nat
  /\ (0 < 1 < 2)%nat
  /\ (1 - 0 <= continuation_bytes_needed true (deref [xc3; x41] 0))%nat
  /\ is_continuation true (deref [xc3; x41] 1) = false
  /\ (forall j, (0 < j < 1)%nat ->
                is_continuation true (deref [xc3; x41] j) = true)
  /\ position (reason (next_codepoint true [xc3; x41] 0 2 0))
     = Z.of_nat 1 - Z.of_nat 0 - 1.
Proof.
  assert (H1 : (0 < 2)%nat) by lia.
  assert (H2 : (0 < 1 < 2)%nat) by lia.
  assert (H3 : (1 - 0 <= continuation_bytes_needed true
                           (deref [xc3; x41] 0))%nat)
    by (vm_compute; lia).
  assert (H4 : is_continuation true (deref [xc3; x41] 1) = false)
    by reflexivity.
  assert (H5 : forall j, (0 < j < 1)%nat ->
                         is_continuation true (deref [xc3; x41] j) = true)
    by (intros j Hj; lia).
  exact (conj H1 (conj H2 (conj H3 (conj H4 (conj H5
    (proj2 (something_else_iff_offending_byte true [xc3; x41] 0 2 0 H1)
           1%nat H2 H3 H4 H5)))))).
Defined.

(** * The program as it hands back its iterators *)

Lemma read_returned_reference sgn buf start end_ cp0 :
  read (next_codepoint_returns sgn buf start end_ cp0) = None.
Proof. reflexivity. Qed.

Lemma is_valid_loop_src_first_copy sgn fuel buf begin end_ cbegin cp0 r0 :
  cbegin <> end_ ->
  is_valid_loop_src sgn (S fuel) buf begin end_ cbegin cp0 r0 = undefined.
Proof.
  intros Hne. cbn [is_valid_loop_src].
  replace (cbegin =? end_)%nat with false
    by (symmetry; apply Nat.eqb_neq; exact Hne).
  cbn [negb]. rewrite read_returned_reference. reflexivity.
Qed.

Lemma encode_nonempty cs :
  cs <> [] -> List.length (encode cs) <> 0%nat.
Proof.
  destruct cs as [|c cs]; [contradiction|]. intros _.
  rewrite encode_cons, length_app.
  pose proof (encode_codepoint_length c). lia.
Qed.

(** C1. On the encoding of a non-empty list of values in [0, 0x10FFFF] the
    scan does not return true: its first step copies [cend] from the
    reference [next_codepoint] returns, which designates a local of
    [next_codepoint] whose lifetime has ended, and the behaviour is
    undefined.  Read by value, the same buffer is accepted. *)
Theorem scan_of_encoded_values_is_undefined sgn indet cs r0 :
  Forall in_unicode_range cs ->
  cs <> [] ->
  is_valid_internal_src sgn indet (encode cs) 0 (List.length (encode cs)) r0
  = undefined
  /\ is_valid sgn indet (encode cs) = Some true.
Proof.
  intros Hcs Hne. split.
  - unfold is_valid_internal_src. apply is_valid_loop_src_first_copy.
    intros E. apply (encode_nonempty cs Hne). symmetry. exact E.
  - apply encode_is_valid. exact Hcs.
Qed.

(** C2. On a non-empty range the local [position] of [next_codepoint] has
    moved strictly forward, and not beyond the end, when the function
    returns; but the function returns a reference to that local, which no
    caller can read: the copy is undefined.  The scan of a non-empty range
    makes that copy in its first step, so it does not terminate with a
    result. *)
Theorem returned_position_cannot_be_read sgn indet buf :
  (forall start end_ cp0,
      (start < end_)%nat ->
      let r := next_codepoint_returns sgn buf start end_ cp0 in
      (start < referent r <= end_)%nat
      /\ life r = ended
      /\ read r = None)
  /\ (forall begin end_ r0,
         (begin < end_)%nat ->
         is_valid_internal_src sgn indet buf begin end_ r0 = undefined).
Proof.
  split.
  - intros start end_ cp0 Hlt r. subst r.
    split; [|split; reflexivity].
    cbn [next_codepoint_returns local_at_return referent].
    apply next_codepoint_progress. exact Hlt.
  - intros begin end_ r0 Hlt. unfold is_valid_internal_src.
    apply is_valid_loop_src_first_copy. lia.
Qed.

(** C7. Every call of [next_textual_element] executes
    [cend = next_codepoint(...)] first, a copy from the reference to a
    local of [next_codepoint] whose lifetime has ended: on every range and
    for every predicate the behaviour is undefined, so the function
    delivers neither the first codepoint nor the start of a later failing
    one. *)
Theorem next_textual_element_copies_from_a_dead_local
    sgn indet buf begin end_ keep_going :
  next_textual_element_src sgn indet buf begin end_ keep_going = undefined.
Proof.
  unfold next_textual_element_src. cbn [next_textual_element_loop_src].
  rewrite read_returned_reference. reflexivity.
Qed.

(** C10. The decoder itself does not reject a surrogate: on the three-byte
    encoding of a value in [0xD800, 0xDFFF] (first byte 0xED, second in
    0xA0..0xBF) it stores that value as the codepoint and the empty
    reason.  The scan of a buffer of such sequences, however, copies from
    the dead reference [next_codepoint] returns and is undefined; it does
    not return true. *)
Theorem surrogate_is_decoded_but_scan_is_undefined sgn indet :
  (forall c cp0,
      is_surrogate c ->
      (exists b1 b2, encode_codepoint c = [xed; b1; b2]
                     /\ 0xA0 <= byte_val b1 < 0xC0)
      /\ codepoint (next_codepoint sgn (encode_codepoint c) 0 3 cp0) = c
      /\ reason (next_codepoint sgn (encode_codepoint c) 0 3 cp0)
         = no_reason)
  /\ (forall cs r0,
         Forall is_surrogate cs ->
         cs <> [] ->
         is_valid_internal_src sgn indet (encode cs) 0
                               (List.length (encode cs)) r0
         = undefined).
Proof.
  split.
  - intros c cp0 Hc. split.
    + rewrite (encode_surrogate c Hc). eexists _, _. split; [reflexivity|].
      rewrite byte_val_of_Z; unfold is_surrogate in Hc; arith.
    + pose proof (next_codepoint_encode sgn c [] [] cp0
                    (surrogate_in_range c Hc)) as H.
      rewrite app_nil_r in H. cbn [app] in H.
      rewrite (encode_surrogate c Hc) in H |- *.
      cbn [List.length] in H. rewrite H. split; reflexivity.
  - intros cs r0 _ Hne. unfold is_valid_internal_src.
    apply is_valid_loop_src_first_copy.
    intros E. apply (encode_nonempty cs Hne). symmetry. exact E.
Qed.


(** ** At particular inputs *)

(** "A", the euro sign, U+10FFFF and a surrogate. *)
Lemma scan_of_encoded_values_witness :
  Forall in_unicode_range [0x41; 0x20AC; 0x10FFFF; 0xD800]
  /\ [0x41; 0x20AC; 0x10FFFF; 0xD800] <> []
  /\ is_valid_internal_src true 0
       (encode [0x41; 0x20AC; 0x10FFFF; 0xD800]) 0
       (List.length (encode [0x41; 0x20AC; 0x10FFFF; 0xD800])) no_reason
     = undefined
  /\ is_valid true 0 (encode [0x41; 0x20AC; 0x10FFFF; 0xD800]) = Some true.
Proof.
  assert (H1 : Forall in_unicode_range [0x41; 0x20AC; 0x10FFFF; 0xD800])
    by (repeat constructor; unfold in_unicode_range; lia).
  assert (H2 : [0x41; 0x20AC; 0x10FFFF; 0xD800] <> []) by discriminate.
  exact (conj H1 (conj H2
    (scan_of_encoded_values_is_undefined true 0 _ no_reason H1 H2))).
Defined.

(** The one-byte buffer "A". *)
Lemma returned_position_witness :
  (0 < 1)%nat
  /\ (let r := next_codepoint_returns true [x41] 0 1 0 in
      (0 < referent r <= 1)%nat /\ life r = ended /\ read r = None)
  /\ is_valid_internal_src true 0 [x41] 0 1 no_reason = undefined.
Proof.
  assert (H : (0 < 1)%nat) by lia.
  exact (conj H (conj
    (proj1 (returned_position_cannot_be_read true 0 [x41]) 0%nat 1%nat 0 H)
    (proj2 (returned_position_cannot_be_read true 0 [x41])
           0%nat 1%nat no_reason H))).
Defined.

(** The first high surrogate, 0xED 0xA0 0x80. *)
Lemma surrogate_scan_witness :
  is_surrogate 0xD800
  /\ Forall is_surrogate [0xD800]
  /\ [0xD800] <> []
  /\ codepoint (next_codepoint true (encode_codepoint 0xD800) 0 3 0) = 0xD800
  /\ reason (next_codepoint true (encode_codepoint 0xD800) 0 3 0) = no_reason
  /\ is_valid_internal_src true 0 (encode [0xD800]) 0
                           (List.length (encode [0xD800])) no_reason
     = undefined.
Proof.
  assert (H1 : is_surrogate 0xD800) by (unfold is_surrogate; lia).
  assert (H2 : Forall is_surrogate [0xD800])
    by (repeat constructor; unfold is_surrogate; lia).
  assert (H3 : [0xD800] <> []) by discriminate.
  exact (conj H1 (conj H2 (conj H3 (conj
    (proj1 (proj2 (proj1 (surrogate_is_decoded_but_scan_is_undefined true 0)
                         0xD800 0 H1)))
    (conj
       (proj2 (proj2 (proj1 (surrogate_is_decoded_but_scan_is_undefined
                               true 0) 0xD800 0 H1)))
       (proj2 (surrogate_is_decoded_but_scan_is_undefined true 0)
              [0xD800] no_reason H2 H3)))))).
Defined.
